(** * An expiring slot cache with buckets: model and verification

  Shallow embedding of the Go package [cache]:
  - [src/cache.go]: [Slot], [Cache], [CacheConfig], the public methods
    [Add], [Delete], [Extend], [Get], [Update], the unexported methods
    [add], [clean], [delete], [extend], [get], [update] and the janitor
    loop started by [NewCache];
  - the bucket file: [Bucket], [bucketIterator] and their methods.

  The parts of the Go standard library the package calls are modelled
  after the library's own definitions: [hash/fnv] (the 64-bit FNV-1a
  digest), [time] ([Time], [Unix], [Add], [After]) and [math.MaxInt64]. *)

From Stdlib Require Import ZArith String Ascii List Bool Lia.
From stdpp Require Import base gmap list strings.

(** ** Machine integers *)

Module GoInt.
Local Open Scope Z_scope.

(** [math.MaxInt64]. *)
Definition MaxInt64 : Z := 2 ^ 63 - 1.
Definition MinInt64 : Z := - 2 ^ 63.

(** Arithmetic on [int64] wraps around (two's complement). *)
Definition wrap64 (z : Z) : Z := (z + 2 ^ 63) mod 2 ^ 64 - 2 ^ 63.

(** Arithmetic on [uint64] is modulo [2^64]. *)
Definition wrapU64 (z : Z) : Z := z mod 2 ^ 64.

End GoInt.

(** ** Package [time]

  A [time.Time] is a [uint64] wall word, an [int64] field [ext] and a
  location.  Every instant this package builds comes from
  [time.Now().UTC()] (where [UTC] strips the monotonic reading), from
  [time.Unix], from [Time.Add] on such a value, or is the zero value of
  the type.  For all of them the monotonic flag of the wall word is
  clear, the wall word holds only the nanoseconds and [ext] holds the
  seconds elapsed since January 1 of year 1.  The record below keeps
  these two numbers; the location plays no part in [After] and [Add]. *)

Module time.
Import GoInt.
Local Open Scope Z_scope.

Record Time : Type := mkTime {
  ext : Z;    (* int64: seconds since January 1, year 1 *)
  nsec : Z    (* nanoseconds within the second, [0, 999999999] *)
}.

(** A [time.Duration] is an [int64] count of nanoseconds. *)
Definition Duration : Type := Z.

Definition Nanosecond : Duration := 1.
Definition Second : Duration := 1000000000.
Definition Minute : Duration := 60 * Second.

Definition secondsPerDay : Z := 86400.

(** [unixToInternal]: seconds from year 1 to the Unix epoch. *)
Definition unixToInternal : Z :=
  (1969 * 365 + 1969 / 4 - 1969 / 100 + 1969 / 400) * secondsPerDay.

(** The zero value [time.Time{}]. *)
Definition zero : Time := mkTime 0 0.

(** [unixTime(sec, nsec)] is [Time{uint64(nsec), sec + unixToInternal, Local}];
    the sum is an [int64] sum. *)
Definition unixTime (sec nsec : Z) : Time :=
  mkTime (wrap64 (sec + unixToInternal)) nsec.

(** [time.Unix(sec, nsec)]. *)
Definition Unix (sec nsec : Z) : Time :=
  if (nsec <? 0) || (1000000000 <=? nsec) then
    let n := Z.quot nsec 1000000000 in
    let sec := wrap64 (sec + n) in
    let nsec := nsec - n * 1000000000 in
    if nsec <? 0 then unixTime (wrap64 (sec - 1)) (nsec + 1000000000)
    else unixTime sec nsec
  else unixTime sec nsec.

(** [t.After(u)] for instants without a monotonic reading:
    [ts > us || ts == us && t.nsec() > u.nsec()]. *)
Definition After (t u : Time) : bool :=
  (ext u <? ext t) || ((ext t =? ext u) && (nsec u <? nsec t)).

(** [t.addSec(d)] for an instant without a monotonic reading; the sum
    saturates when it overflows. *)
Definition addSec (t : Time) (d : Z) : Time :=
  let sum := wrap64 (ext t + d) in
  if Bool.eqb (ext t <? sum) (0 <? d) then mkTime sum (nsec t)
  else if 0 <? d then mkTime MaxInt64 (nsec t)
  else mkTime (- MaxInt64) (nsec t).

(** [t.Add(d)]. *)
Definition Add (t : Time) (d : Duration) : Time :=
  let dsec := Z.quot d 1000000000 in
  let ns := nsec t + Z.rem d 1000000000 in
  if 1000000000 <=? ns then addSec (mkTime (ext t) (ns - 1000000000)) (dsec + 1)
  else if ns <? 0 then addSec (mkTime (ext t) (ns + 1000000000)) (dsec - 1)
  else addSec (mkTime (ext t) ns) dsec.

(** The instants the clock can deliver: a well-formed nanosecond field
    and a seconds field that fits [int64]. *)
Definition valid (t : Time) : Prop :=
  MinInt64 <= ext t <= MaxInt64 /\ 0 <= nsec t < 1000000000.

(** [t] is not after [u]: the order the janitor's comparisons induce. *)
Definition le (t u : Time) : Prop := After t u = false.

End time.

(** ** Package [hash/fnv]: the 64-bit FNV-1a digest

  [fnv.New64a()] starts from [offset64]; [Write] folds every byte in
  with [hash ^= uint64(c); hash *= prime64] and always returns a nil
  error; [Sum64] returns the state. *)

Module fnv.
Import GoInt.
Local Open Scope Z_scope.

Definition offset64 : Z := 14695981039346656037.
Definition prime64 : Z := 1099511628211.

Definition byte_of (c : ascii) : Z := Z.of_N (N_of_ascii c).

Fixpoint Write (hash : Z) (data : string) : Z :=
  match data with
  | EmptyString => hash
  | String c rest => Write (wrapU64 (Z.lxor hash (byte_of c) * prime64)) rest
  end.

(** The digest of a whole key: [New64a], one [Write], [Sum64]. *)
Definition Sum64a (key : string) : Z := Write offset64 key.
End fnv.

(** ** The slot store ([src/cache.go]) *)

(** The two sentinel errors of the package; a nil [error] is [None]. *)
Inductive error : Type := ErrCollision | ErrDNE.

(** Outcome of a method that indexes the slot slice: it returns, or the
  Go runtime panics with an index out of range. *)
Inductive exec (A : Type) : Type :=
| Done (a : A)
| Panic.
Arguments Done {A} a.
Arguments Panic {A}.

(** [CacheConfig]; the [OnExpires] callback is applied by the janitor to
  the slots [clean] returns and takes no part in the store's state. *)
Record CacheConfig : Type := mkConfig {
Refresh : bool;
RefreshDuration : time.Duration;
CleanDuration : time.Duration
}.

Definition defaultCleanDuration : time.Duration := (10 * time.Second)%Z.
Definition defaultRefreshDuration : time.Duration := (1 * time.Second)%Z.
Definition defaultConfig : CacheConfig := mkConfig false 0%Z defaultCleanDuration.

Section Store.
(** Values are [interface{}]: [None] is the nil interface, [Some v] a
    dynamic value of the caller's type. *)
Context {V : Type}.

Definition any : Type := option V.

Record Slot : Type := mkSlot {
  Item : any;
  ExpiresAt : time.Time;
  empty : bool
}.

Record Cache : Type := mkCache {
  slots : list Slot;
  keys : gmap Z nat;
  nextExp : time.Time;
  config : CacheConfig
}.

(** [NewCache(config)]: the defaults are filled in, the store starts
    with no slot, no key and the zero instant for [nextExp]. *)
Definition NewCache (cfg : option CacheConfig) : Cache :=
  let cfg := match cfg with Some c => c | None => defaultConfig end in
  let cfg := if (CleanDuration cfg =? 0)%Z
             then mkConfig (Refresh cfg) (RefreshDuration cfg) defaultCleanDuration
             else cfg in
  let cfg := if Refresh cfg && (RefreshDuration cfg =? 0)%Z
             then mkConfig (Refresh cfg) defaultRefreshDuration (CleanDuration cfg)
             else cfg in
  mkCache [] ∅ time.zero cfg.

(** The loop of [add] over [t.slots]: position [i] holds [c]; every
    slot found empty is overwritten with [ts], [fit] is raised and
    [idx] remembers the position.  The loop has no exit. *)
Fixpoint add_loop (ts : Slot) (i : nat) (ss : list Slot) (fit : bool) (idx : nat)
  : list Slot * bool * nat :=
  match ss with
  | [] => ([], fit, idx)
  | c :: rest =>
      if empty c then
        let '(rest', fit', idx') := add_loop ts (S i) rest true i in
        (ts :: rest', fit', idx')
      else
        let '(rest', fit', idx') := add_loop ts (S i) rest fit idx in
        (c :: rest', fit', idx')
  end.

Definition add (key : Z) (item : any) (expiresAt : time.Time) (t : Cache)
  : Cache * option error :=
  match keys t !! key with
  | Some _ => (t, Some ErrCollision)
  | None =>
      let ts := mkSlot item expiresAt false in
      let '(ss, fit, idx) := add_loop ts 0 (slots t) false 0 in
      let '(ss, idx) := if fit then (ss, idx) else (ss ++ [ts], length ss) in
      let nx := if time.After (nextExp t) expiresAt || (length ss =? 1)%nat
                then expiresAt else nextExp t in
      (mkCache ss (<[key := idx]> (keys t)) nx (config t), None)
  end.

Definition tombstone (s : Slot) : Slot := mkSlot (Item s) (ExpiresAt s) true.

(** The loop of [clean]: [clock i] is the reading of
    [time.Now().UTC()] taken while slot [i] is examined. *)
Fixpoint clean_loop (clock : nat -> time.Time) (i : nat) (ss : list Slot)
    (expired : list Slot) (nearestExp : time.Time) (firstNonEmpty : bool)
  : list Slot * list Slot * time.Time :=
  match ss with
  | [] => ([], expired, nearestExp)
  | object :: rest =>
      if negb (empty object) then
        if time.After (clock i) (ExpiresAt object) then
          let '(rest', expired', nearest') :=
            clean_loop clock (S i) rest (expired ++ [object]) nearestExp firstNonEmpty in
          (tombstone object :: rest', expired', nearest')
        else
          let nearestExp := if firstNonEmpty then ExpiresAt object else nearestExp in
          let nearestExp := if time.After nearestExp (ExpiresAt object)
                            then ExpiresAt object else nearestExp in
          let '(rest', expired', nearest') :=
            clean_loop clock (S i) rest expired nearestExp false in
          (object :: rest', expired', nearest')
      else
        let '(rest', expired', nearest') :=
          clean_loop clock (S i) rest expired nearestExp firstNonEmpty in
        (object :: rest', expired', nearest')
  end.

(** [clean]: returns the expired slots (as they were before being
    tombstoned) and leaves the key map alone. *)
Definition clean (clock : nat -> time.Time) (t : Cache) : Cache * list Slot :=
  let '(ss, expired, nearestExp) :=
    clean_loop clock 0 (slots t) [] time.zero true in
  (mkCache ss (keys t) nearestExp (config t), expired).

(** One wake-up of the janitor goroutine of [NewCache]: the store is
    swept only when the instant [now] is after [nextExp]. *)
Definition janitor (now : time.Time) (clock : nat -> time.Time) (t : Cache)
  : Cache * list any :=
  if time.After now (nextExp t) then
    let '(t', expired) := clean clock t in (t', map Item expired)
  else (t, []).

Definition delete (key : Z) (t : Cache) : exec (Cache * option error) :=
  match keys t !! key with
  | None => Done (t, Some ErrDNE)
  | Some idx =>
      match slots t !! idx with
      | None => Panic
      | Some s =>
          Done (mkCache (<[idx := tombstone s]> (slots t))
                        (base.delete key (keys t)) (nextExp t) (config t), None)
      end
  end.

Definition extend (key : Z) (d : time.Duration) (t : Cache)
  : exec (Cache * option error) :=
  match keys t !! key with
  | None => Done (t, Some ErrDNE)
  | Some idx =>
      match slots t !! idx with
      | None => Panic
      | Some s =>
          let e := time.Add (ExpiresAt s) d in
          let ss := <[idx := mkSlot (Item s) e (empty s)]> (slots t) in
          let nx := if time.After (nextExp t) e then e else nextExp t in
          Done (mkCache ss (keys t) nx (config t), None)
      end
  end.

Definition get (key : Z) (t : Cache) : exec (Cache * (any * option error)) :=
  match keys t !! key with
  | None => Done (t, (None, Some ErrDNE))
  | Some idx =>
      match slots t !! idx with
      | None => Panic
      | Some item =>
          if empty item then
            Done (mkCache (slots t) (base.delete key (keys t)) (nextExp t) (config t),
                  (None, Some ErrDNE))
          else if Refresh (config t) then
            match extend key (RefreshDuration (config t)) t with
            | Panic => Panic
            | Done (t', Some err) => Done (t', (None, Some err))
            | Done (t', None) => Done (t', (Item item, None))
            end
          else Done (t, (Item item, None))
      end
  end.

Definition update (key : Z) (item : any) (t : Cache) : exec (Cache * option error) :=
  match keys t !! key with
  | None => Done (t, Some ErrDNE)
  | Some idx =>
      match slots t !! idx with
      | None => Panic
      | Some s =>
          Done (mkCache (<[idx := mkSlot item (ExpiresAt s) (empty s)]> (slots t))
                        (keys t) (nextExp t) (config t), None)
      end
  end.

(** *** The public methods: hash the key, then call the unexported one.
    [hasher.Write] never fails, so its error branch is never taken. *)

Definition Add (key : string) (item : any) (expiresIn : time.Duration)
    (now : time.Time) (t : Cache) : Cache * option error :=
  let hashedKey := fnv.Sum64a key in
  let expiresAt := if (expiresIn =? 0)%Z then time.Unix GoInt.MaxInt64 0
                   else time.Add now expiresIn in
  add hashedKey item expiresAt t.

Definition Delete (key : string) (t : Cache) : exec (Cache * option error) :=
  delete (fnv.Sum64a key) t.

Definition Extend (key : string) (d : time.Duration) (t : Cache)
  : exec (Cache * option error) :=
  extend (fnv.Sum64a key) d t.

Definition Get (key : string) (t : Cache) : exec (Cache * (any * option error)) :=
  get (fnv.Sum64a key) t.

Definition Update (key : string) (item : any) (t : Cache)
  : exec (Cache * option error) :=
  update (fnv.Sum64a key) item t.
End Store.

Arguments Slot V : clear implicits.
Arguments Cache V : clear implicits.
Arguments any V : clear implicits.

(** ** Buckets

    A [*Bucket] is a heap object shared by its users and by the cache
    slot that stores it: the methods below take the current state of that
    object and of the [*Cache] it points to, and return the new ones. *)

Module Bucket.

Record Bucket : Type := mkBucket {
  name : string;
  list : Datatypes.list Z
}.

(** The composite key [b.name + "-" + key]. *)
Definition pk (name key : string) : string := name +:+ "-" +:+ key.

(** The membership loop of [Add]: is [hk] among the fingerprints? *)
Fixpoint contains (hk : Z) (l : Datatypes.list Z) : bool :=
  match l with
  | [] => false
  | k :: rest => if (k =? hk)%Z then true else contains hk rest
  end.

(** The loop of [Delete]: the first occurrence of [hk] is cut out. *)
Fixpoint remove_first (hk : Z) (l : Datatypes.list Z) : Datatypes.list Z :=
  match l with
  | [] => []
  | k :: rest => if (k =? hk)%Z then rest else k :: remove_first hk rest
  end.

Section Methods.
Context {V : Type}.

Definition Add (key : string) (item : any V) (expiresIn : time.Duration)
    (now : time.Time) (b : Bucket) (t : Cache V) : Bucket * Cache V * option error :=
  let hk := fnv.Sum64a (pk (name b) key) in
  let exists_ := contains hk (list b) in
  let b := if negb exists_ then mkBucket (name b) (list b ++ [hk]) else b in
  let expiresAt := time.Add now expiresIn in
  let '(t, err) := add hk item expiresAt t in
  (b, t, err).

Definition Delete (key : string) (b : Bucket) (t : Cache V)
  : exec (Bucket * Cache V * option error) :=
  let hk := fnv.Sum64a (pk (name b) key) in
  let b := mkBucket (name b) (remove_first hk (list b)) in
  match delete hk t with
  | Panic => Panic
  | Done (t, err) => Done (b, t, err)
  end.

Definition Get (key : string) (b : Bucket) (t : Cache V)
  : exec (Cache V * (any V * option error)) :=
  get (fnv.Sum64a (pk (name b) key)) t.

Definition Extend (key : string) (d : time.Duration) (b : Bucket) (t : Cache V)
  : exec (Cache V * option error) :=
  extend (fnv.Sum64a (pk (name b) key)) d t.

Definition Update (key : string) (item : any V) (b : Bucket) (t : Cache V)
  : exec (Cache V * option error) :=
  update (fnv.Sum64a (pk (name b) key)) item t.

Definition Len (b : Bucket) : nat := length (list b).

End Methods.
End Bucket.

(** ** The bucket iterator

    The iterator points to its bucket; [Next] reads the bucket's list as
    it is when [Next] is called. *)

Module bucketIterator.
Section Methods.
Context {V : Type}.

Record bucketIterator : Type := mkIter {
  key : Z;
  item : any V;
  position : nat
}.

(** [b.Iterator()]: every field but the bucket pointer is zero. *)
Definition Iterator : bucketIterator := mkIter 0%Z None 0.

Definition Item (it : bucketIterator) : any V := item it.

Definition Next (b : Bucket.Bucket) (it : bucketIterator) (t : Cache V)
  : exec (bool * bucketIterator * Cache V) :=
  if position it <? length (Bucket.list b) then
    match Bucket.list b !! position it with
    | None => Panic
    | Some k =>
        match get k t with
        | Panic => Panic
        | Done (t', (v, _)) => Done (true, mkIter k v (S (position it)), t')
        end
    end
  else Done (false, it, t).

Definition Update (v : any V) (it : bucketIterator) (t : Cache V)
  : exec (Cache V * option error) :=
  update (key it) v t.

End Methods.
Arguments bucketIterator V : clear implicits.
End bucketIterator.

(** * Notions used to state the properties *)

Section Notions.
Context {V : Type}.
Implicit Types (t : Cache V) (s ts : Slot V) (ss : list (Slot V)).

(** The slot left at a position by the loop of [add]. *)
Definition refill ts s : Slot V := if empty s then ts else s.

(** The state [add] builds when the key is free. *)
Definition add_slots ts ss : list (Slot V) :=
  if existsb empty ss then map (refill ts) ss else ss ++ [ts].

(** Every position the index holds lies inside the slot slice, so that
    no [t.slots[idx]] panics. *)
Definition wf t : Prop :=
  ∀ key idx, keys t !! key = Some idx → idx < length (slots t).

(** [nx] is not after the expiration of any slot that is not empty. *)
Definition lower_bound (nx : time.Time) ss : Prop :=
  Forall (λ s, empty s = false → time.le nx (ExpiresAt s)) ss.

(** ** The states of a store

    A store starts as [NewCache] leaves it and moves by calls of its
    methods and by wake-ups of its janitor.  The unexported methods are
    taken at every fingerprint and every instant: the public methods of
    the store and the methods of a bucket are calls of these at the
    fingerprint and the instant they compute. *)
Inductive reachable : Cache V → Prop :=
  | reach_NewCache cfg : reachable (NewCache cfg)
  | reach_add key item e t :
      reachable t → reachable (add key item e t).1
  | reach_get key t t' r :
      reachable t → get key t = Done (t', r) → reachable t'
  | reach_update key item t t' err :
      reachable t → update key item t = Done (t', err) → reachable t'
  | reach_extend key d t t' err :
      reachable t → extend key d t = Done (t', err) → reachable t'
  | reach_delete key t t' err :
      reachable t → delete key t = Done (t', err) → reachable t'
  | reach_clean clock t :
      reachable t → reachable (clean clock t).1
  | reach_janitor now clock t :
      reachable t → reachable (janitor now clock t).1.

(** What a sweep whose clock reads [clock i] at position [i] leaves
    there, when it found [s]. *)
Definition swept (clock : nat → time.Time) (i : nat) s : Slot V :=
  if negb (empty s) && time.After (clock i) (ExpiresAt s) then tombstone s else s.

(** The values the store's [get] yields for the fingerprints of [l],
    asked one after the other. *)
Fixpoint resolve (l : list Z) t : exec (list (any V) * Cache V) :=
  match l with
  | [] => Done ([], t)
  | k :: rest =>
      match get k t with
      | Panic => Panic
      | Done (t', (v, _)) =>
          match resolve rest t' with
          | Panic => Panic
          | Done (vs, t'') => Done (v :: vs, t'')
          end
      end
  end.

(** [n] calls of [Next] in a row on the iterator of bucket [b]; each
    call is recorded with its result and with the fingerprint and the
    [Item()] the iterator shows after it. *)
Fixpoint run_Next (n : nat) (b : Bucket.Bucket) (it : bucketIterator.bucketIterator V) t
  : exec (list (bool * Z * any V) * bucketIterator.bucketIterator V * Cache V) :=
  match n with
  | 0 => Done ([], it, t)
  | S m =>
      match bucketIterator.Next b it t with
      | Panic => Panic
      | Done (more, it', t') =>
          match run_Next m b it' t' with
          | Panic => Panic
          | Done (trace, it'', t'') =>
              Done ((more, bucketIterator.key it', bucketIterator.Item it') :: trace, it'', t'')
          end
      end
  end.

(** The record of a call of [Next] that found the fingerprint [k] and
    resolved it to [v]. *)
Definition visit (k : Z) (v : any V) : bool * Z * any V := (true, k, v).

End Notions.

(** Does the separator of composite keys occur in [s]? *)
Fixpoint has_sep (s : string) : bool :=
  match s with
  | EmptyString => false
  | String c rest => Ascii.eqb c "-" || has_sep rest
  end.

(** ** Instants and stores used in the examples *)

(** 30 October 2026, 00:00:00 UTC, as [time.Now().UTC()] delivers it. *)
Definition now0 : time.Time := time.Unix 1793318400 0.

(** [sec] seconds after [now0]. *)
Definition later (sec : Z) : time.Time := time.Unix (1793318400 + sec) 0.

(** A sweep during which the clock reads [now] throughout. *)
Definition at_ (now : time.Time) : nat → time.Time := λ _, now.

Definition fresh : Cache string := NewCache None.

(** One entry that expires one second after [now0]. *)
Definition one_second : Cache string := (Add "k" (Some "v") time.Second now0 fresh).1.

(** [one_second] after the janitor woke up ten seconds after [now0]. *)
Definition after_sweep : Cache string :=
  (janitor (later 10) (at_ (later 10)) one_second).1.

(** Two entries: ["a"] expires after a minute, ["b"] after a second. *)
Definition two_entries : Cache string :=
  (Add "b" (Some "vb") time.Second now0
     (Add "a" (Some "va") time.Minute now0 fresh).1).1.

(** The bucket ["b"] after [Add("x", 1, 10m)] and [Add("y", 2, 10m)],
    and the store these calls leave. *)
Definition bucket_xy : Bucket.Bucket * Cache string :=
  let r := Bucket.Add "x" (Some "1") (10 * time.Minute)%Z now0 (Bucket.mkBucket "b" []) fresh in
  (Bucket.Add "y" (Some "2") (10 * time.Minute)%Z now0 r.1.1 r.1.2).1.


(** ** Buckets as cache entries

    [Cache.Bucket] stores the [*Bucket] it creates as a value of the
    cache.  The values of the store are then either values of the caller
    or pointers to buckets, and the buckets live in a heap: a pointer is
    a position of the heap. *)

Module CacheBucket.
Section Methods.
Context {U : Type}.

(** A stored dynamic value: a caller's value or a [*Bucket]. *)
Definition val : Type := (U + nat)%type.

Record World : Type := mkWorld {
  heap : list Bucket.Bucket;
  cache : Cache val
}.

(** [c.Bucket(name)].  The result is the pointer returned, [None] for
    the nil pointer.  [Add] does not read the clock for a zero duration,
    so the instant handed to it plays no part.  The type assertion of
    [obj] to a bucket pointer panics when the value is not one. *)
Definition Bucket (name : string) (w : World) : exec (World * option nat) :=
  match Get name (cache w) with
  | Panic => Panic
  | Done (t, (obj, Some ErrDNE)) =>
      let p := length (heap w) in
      let hp := heap w ++ [Bucket.mkBucket name []] in
      let '(t', err) := Add name (Some (inr p)) 0%Z time.zero t in
      match err with
      | Some _ => Done (mkWorld hp t', None)
      | None => Done (mkWorld hp t', Some p)
      end
  | Done (t, (obj, Some _)) => Done (mkWorld (heap w) t, None)
  | Done (t, (obj, None)) =>
      match obj with
      | Some (inr p) => Done (mkWorld (heap w) t, Some p)
      | _ => Panic
      end
  end.

End Methods.
Arguments World U : clear implicits.
Arguments val U : clear implicits.
End CacheBucket.

(** ** Further notions *)

Section MoreNotions.
Context {V : Type}.

(** The test of [clean] on a slot at the instant [now]: the slot is in
    use and [now] is after its expiration. *)
Definition due (now : time.Time) (s : Slot V) : bool :=
  negb (empty s) && time.After now (ExpiresAt s).

(** The fingerprints of [l] other than [k], in the order of [l]. *)
Definition other_than (k : Z) (l : list Z) : list Z :=
  List.filter (λ x, negb (x =? k)%Z) l.

End MoreNotions.

(** Instants that lie in our era and whose seconds leave room for a
    duration to be added without overflow. *)
Definition roomy (t : time.Time) : Prop :=
  (0 ≤ time.ext t ≤ 2 ^ 62)%Z ∧ (0 ≤ time.nsec t < 1000000000)%Z.

(** A store with [Refresh] on and one entry that expires after a
    minute. *)
Definition refreshing : Cache string :=
  (Add "k" (Some "v") time.Minute now0
     (NewCache (Some (mkConfig true 0%Z 0%Z)))).1.

(** The store [Bucket.Add("x", "1", 0)] leaves when called at [now0] on
    the empty bucket ["b"] and a new cache. *)
Definition store_x : Cache string :=
  mkCache [mkSlot (Some "1") now0 false] {[ fnv.Sum64a "b-x" := 0 ]} now0 defaultConfig.

(** A store of values and bucket pointers in which ["k"] holds a value
    of the caller. *)
Definition store_with_value : Cache (CacheBucket.val string) :=
  (Add "k" (Some (inl "v")) time.Minute now0 (NewCache None)).1.

(** The world in which [Bucket("b")] was called on a new cache. *)
Definition world_b : CacheBucket.World string :=
  match CacheBucket.Bucket "b" (CacheBucket.mkWorld [] (NewCache None)) with
  | Done (w, _) => w
  | Panic => CacheBucket.mkWorld [] (NewCache None)
  end.

(** * Facts about the library functions *)

Section LibraryFacts.
Import GoInt time.
Local Open Scope Z_scope.

Lemma wrap64_id z : MinInt64 <= z <= MaxInt64 -> wrap64 z = z.
Proof.
  unfold wrap64, MinInt64, MaxInt64. intros Hz.
  rewrite Z.mod_small; lia.
Qed.

Lemma wrap64_range z : MinInt64 <= wrap64 z <= MaxInt64.
Proof.
  unfold wrap64, MinInt64, MaxInt64.
  pose proof (Z.mod_pos_bound (z + 2 ^ 63) (2 ^ 64) ltac:(lia)). lia.
Qed.

Lemma time_After_irrefl t : After t t = false.
Proof. unfold After. destruct t as [e n]; simpl. lia. Qed.

Lemma time_le_refl t : le t t.
Proof. apply time_After_irrefl. Qed.

Lemma time_le_trans t u v : le t u -> le u v -> le t v.
Proof. unfold le, After. destruct t, u, v; simpl. lia. Qed.

Lemma time_After_le t u : After t u = true -> le u t.
Proof. unfold le, After. destruct t, u; simpl. lia. Qed.

Lemma time_le_antisym t u : le t u -> le u t -> t = u.
Proof.
  unfold le, After. destruct t as [e1 n1], u as [e2 n2]; simpl.
  intros H1 H2. assert (e1 = e2 /\ n1 = n2) as [-> ->] by lia. reflexivity.
Qed.

Lemma time_Add_zero t : valid t -> Add t 0 = t.
Proof.
  intros [He Hn]. destruct t as [e n]; simpl in *.
  unfold Add; simpl. rewrite Z.add_0_r.
  destruct (1000000000 <=? n) eqn:E1; [lia|].
  destruct (n <? 0) eqn:E2; [lia|].
  unfold addSec; simpl. rewrite Z.add_0_r, wrap64_id by done.
  rewrite Z.ltb_irrefl. reflexivity.
Qed.

(** [time.Unix(math.MaxInt64, 0)]: the sum [sec + unixToInternal]
    overflows [int64], and the seconds field comes out negative. *)
Lemma Unix_MaxInt64 : Unix MaxInt64 0 = mkTime (-9223371974719179009) 0.
Proof. reflexivity. Qed.

(** Every instant from year 1 on is after [time.Unix(math.MaxInt64, 0)]. *)
Lemma After_Unix_MaxInt64 now : 0 <= ext now -> After now (Unix MaxInt64 0) = true.
Proof. intros H. rewrite Unix_MaxInt64. unfold After; simpl. lia. Qed.

End LibraryFacts.

(** * Properties of the slot store *)

Section StoreFacts.
Context {V : Type}.
Implicit Types (t : Cache V) (s ts : Slot V) (ss : list (Slot V)).

(** ** What the loop of [add] computes *)


Lemma add_loop_slots ts ss i fit idx :
  (add_loop ts i ss fit idx).1.1 = map (refill ts) ss.
Proof.
  revert i fit idx. induction ss as [|c rest IH]; intros i fit idx; simpl; [done|].
  unfold refill at 1. destruct (empty c).
  - specialize (IH (S i) true i). destruct (add_loop ts (S i) rest true i) as [[r f] k].
    simpl in *. by rewrite IH.
  - specialize (IH (S i) fit idx). destruct (add_loop ts (S i) rest fit idx) as [[r f] k].
    simpl in *. by rewrite IH.
Qed.

Lemma add_loop_fit ts ss i fit idx :
  (add_loop ts i ss fit idx).1.2 = fit || existsb empty ss.
Proof.
  revert i fit idx. induction ss as [|c rest IH]; intros i fit idx; simpl.
  - by rewrite orb_false_r.
  - destruct (empty c) eqn:Ec.
    + specialize (IH (S i) true i). destruct (add_loop ts (S i) rest true i) as [[r f] k].
      simpl in *. rewrite IH. by rewrite orb_true_r.
    + specialize (IH (S i) fit idx). destruct (add_loop ts (S i) rest fit idx) as [[r f] k].
      simpl in *. by rewrite IH.
Qed.

(** The position the loop reports is the one it was given, or the
    position of an empty slot of the slice. *)
Lemma add_loop_idx ts ss i fit idx :
  let k := (add_loop ts i ss fit idx).2 in
  (k = idx ∧ existsb empty ss = false) ∨
  (i ≤ k < i + length ss ∧ ∃ s, ss !! (k - i) = Some s ∧ empty s = true).
Proof.
  revert i fit idx. induction ss as [|c rest IH]; intros i fit idx; simpl.
  - by left.
  - destruct (empty c) eqn:Ec.
    + specialize (IH (S i) true i). destruct (add_loop ts (S i) rest true i) as [[r f] k].
      simpl in *. right. destruct IH as [[-> _]|[Hk (s & Hs & Es)]].
      * split; [lia|]. exists c. by rewrite Nat.sub_diag.
      * split; [lia|]. exists s. split; [|done].
        replace (k - i) with (S (k - S i)) by lia. done.
    + specialize (IH (S i) fit idx). destruct (add_loop ts (S i) rest fit idx) as [[r f] k].
      simpl in *. destruct IH as [[-> Hn]|[Hk (s & Hs & Es)]]; [by left|].
      right. split; [lia|]. exists s. split; [|done].
      replace (k - i) with (S (k - S i)) by lia. done.
Qed.

Lemma existsb_empty_false ts ss :
  existsb empty ss = false → map (refill ts) ss = ss.
Proof.
  induction ss as [|c rest IH]; simpl; [done|].
  intros [Hc Hr]%orb_false_elim. unfold refill at 1. rewrite Hc. by rewrite IH.
Qed.


Lemma add_unfold key item e t :
  keys t !! key = None →
  ∃ idx,
    add key item e t =
      (mkCache (add_slots (mkSlot item e false) (slots t))
               (<[key := idx]> (keys t))
               (if time.After (nextExp t) e
                   || (length (add_slots (mkSlot item e false) (slots t)) =? 1)
                then e else nextExp t)
               (config t), None)
    ∧ idx < length (add_slots (mkSlot item e false) (slots t))
    ∧ add_slots (mkSlot item e false) (slots t) !! idx = Some (mkSlot item e false).
Proof.
  intros Hk. unfold add, add_slots. rewrite Hk.
  set (ts := mkSlot item e false).
  pose proof (add_loop_slots ts (slots t) 0 false 0) as Hs.
  pose proof (add_loop_fit ts (slots t) 0 false 0) as Hf.
  pose proof (add_loop_idx ts (slots t) 0 false 0) as Hi.
  destruct (add_loop ts 0 (slots t) false 0) as [[ss fit] idx]. simpl in *.
  subst ss fit. destruct (existsb empty (slots t)) eqn:Ex.
  - exists idx. split; [done|]. destruct Hi as [[_ ?]|[Hlt (s & Hs & Es)]]; [done|].
    rewrite Nat.sub_0_r in Hs. rewrite length_map. split; [lia|].
    rewrite list_lookup_fmap, Hs. simpl. unfold refill. by rewrite Es.
  - rewrite existsb_empty_false by done.
    exists (length (slots t)). split; [done|]. rewrite length_app. simpl.
    split; [lia|]. rewrite lookup_app_r by lia. by rewrite Nat.sub_diag.
Qed.

(** ** Every key of the map points inside the slot slice *)


Lemma wf_NewCache cfg : wf (NewCache (V:=V) cfg).
Proof. intros key idx. unfold NewCache; simpl. by rewrite lookup_empty. Qed.

Lemma add_slots_length ts ss : length ss ≤ length (add_slots ts ss).
Proof.
  unfold add_slots. destruct (existsb empty ss).
  - by rewrite length_map.
  - rewrite length_app. simpl. lia.
Qed.

Lemma wf_add key item e t : wf t → wf (add key item e t).1.
Proof.
  intros Hwf. destruct (keys t !! key) as [i|] eqn:Hk.
  - unfold add. by rewrite Hk.
  - destruct (add_unfold key item e t Hk) as (idx & -> & Hlt & _).
    intros k i; simpl. destruct (decide (key = k)) as [->|Hne].
    + rewrite lookup_insert_eq. by intros [= <-].
    + rewrite lookup_insert_ne by done. intros Hi%Hwf.
      pose proof (add_slots_length (mkSlot item e false) (slots t)). lia.
Qed.

Lemma clean_loop_length clock ss i ex ne fne :
  length (clean_loop clock i ss ex ne fne).1.1 = length ss.
Proof.
  revert i ex ne fne. induction ss as [|c rest IH]; intros i ex ne fne; simpl; [done|].
  destruct (empty c); simpl.
  - specialize (IH (S i) ex ne fne).
    destruct (clean_loop clock (S i) rest ex ne fne) as [[r x] n]. simpl in *. by rewrite IH.
  - destruct (time.After (clock i) (ExpiresAt c)).
    + specialize (IH (S i) (ex ++ [c]) ne fne).
      destruct (clean_loop clock (S i) rest (ex ++ [c]) ne fne) as [[r x] n].
      simpl in *. by rewrite IH.
    + match goal with |- context [clean_loop clock (S i) rest ex ?n false] =>
        specialize (IH (S i) ex n false);
        destruct (clean_loop clock (S i) rest ex n false) as [[r x] n'] end.
      simpl in *. by rewrite IH.
Qed.

Lemma clean_keys clock t : keys (clean clock t).1 = keys t.
Proof.
  unfold clean. destruct (clean_loop clock 0 (slots t) [] time.zero true) as [[r x] n].
  done.
Qed.

Lemma clean_slots clock t :
  slots (clean clock t).1 = (clean_loop clock 0 (slots t) [] time.zero true).1.1.
Proof.
  unfold clean. destruct (clean_loop clock 0 (slots t) [] time.zero true) as [[r x] n].
  done.
Qed.

Lemma wf_clean clock t : wf t → wf (clean clock t).1.
Proof.
  intros Hwf key idx. rewrite clean_keys, clean_slots, clean_loop_length. apply Hwf.
Qed.

Lemma wf_janitor now clock t : wf t → wf (janitor now clock t).1.
Proof.
  intros Hwf. unfold janitor. destruct (time.After now (nextExp t)); [|done].
  pose proof (wf_clean clock t Hwf). by destruct (clean clock t).
Qed.

Lemma wf_lookup t key idx :
  wf t → keys t !! key = Some idx → ∃ s, slots t !! idx = Some s.
Proof. intros Hwf Hk%Hwf. by apply lookup_lt_is_Some_2. Qed.

Lemma wf_delete key t t' err : wf t → delete key t = Done (t', err) → wf t'.
Proof.
  intros Hwf. unfold delete. destruct (keys t !! key) as [idx|]; [|by intros [= <- _]].
  destruct (slots t !! idx) as [s|]; [|done]. intros [= <- _] k i; simpl.
  rewrite length_insert. intros Hi%lookup_delete_Some. by apply (Hwf k), Hi.
Qed.

Lemma wf_extend key d t t' err : wf t → extend key d t = Done (t', err) → wf t'.
Proof.
  intros Hwf. unfold extend. destruct (keys t !! key) as [idx|]; [|by intros [= <- _]].
  destruct (slots t !! idx) as [s|]; [|done]. intros [= <- _] k i; simpl.
  rewrite length_insert. apply Hwf.
Qed.

Lemma wf_update key item t t' err : wf t → update key item t = Done (t', err) → wf t'.
Proof.
  intros Hwf. unfold update. destruct (keys t !! key) as [idx|]; [|by intros [= <- _]].
  destruct (slots t !! idx) as [s|]; [|done]. intros [= <- _] k i; simpl.
  rewrite length_insert. apply Hwf.
Qed.

Lemma wf_get key t t' r : wf t → get key t = Done (t', r) → wf t'.
Proof.
  intros Hwf. unfold get. destruct (keys t !! key) as [idx|]; [|by intros [= <- _]].
  destruct (slots t !! idx) as [s|]; [|done]. destruct (empty s).
  - intros [= <- _] k i; simpl. intros Hi%lookup_delete_Some. by apply (Hwf k), Hi.
  - destruct (Refresh (config t)); [|by intros [= <- _]].
    destruct (extend key (RefreshDuration (config t)) t) as [[t1 [e1|]]|] eqn:He; [..|done].
    + intros [= <- _]. by eapply wf_extend.
    + intros [= <- _]. by eapply wf_extend.
Qed.

(** On a well-formed store no method panics. *)
Lemma delete_returns key t : wf t → ∃ r, delete key t = Done r.
Proof.
  intros Hwf. unfold delete. destruct (keys t !! key) as [idx|] eqn:Hk; [|by eexists].
  destruct (wf_lookup t key idx Hwf Hk) as [s ->]. by eexists.
Qed.

Lemma extend_returns key d t : wf t → ∃ r, extend key d t = Done r.
Proof.
  intros Hwf. unfold extend. destruct (keys t !! key) as [idx|] eqn:Hk; [|by eexists].
  destruct (wf_lookup t key idx Hwf Hk) as [s ->]. by eexists.
Qed.

Lemma update_returns key item t : wf t → ∃ r, update key item t = Done r.
Proof.
  intros Hwf. unfold update. destruct (keys t !! key) as [idx|] eqn:Hk; [|by eexists].
  destruct (wf_lookup t key idx Hwf Hk) as [s ->]. by eexists.
Qed.

Lemma get_returns key t : wf t → ∃ r, get key t = Done r.
Proof.
  intros Hwf. unfold get. destruct (keys t !! key) as [idx|] eqn:Hk; [|by eexists].
  destruct (wf_lookup t key idx Hwf Hk) as [s Hs]. rewrite Hs.
  destruct (empty s); [by eexists|]. destruct (Refresh (config t)); [|by eexists].
  unfold extend. rewrite Hk, Hs. by eexists.
Qed.

(** ** [nextExp] is a lower bound of the expirations of the slots in use *)


Lemma lower_bound_mono nx nx' ss :
  time.le nx' nx → lower_bound nx ss → lower_bound nx' ss.
Proof.
  intros Hle Hlb. eapply Forall_impl; [exact Hlb|].
  intros s Hs Es; simpl in *. eapply time_le_trans; eauto.
Qed.

Lemma lower_bound_add_slots nx ts ss :
  time.le nx (ExpiresAt ts) → lower_bound nx ss → lower_bound nx (add_slots ts ss).
Proof.
  intros Hts Hss. unfold add_slots. destruct (existsb empty ss).
  - apply Forall_fmap. eapply Forall_impl; [exact Hss|].
    intros s Hs; simpl. unfold refill. destruct (empty s) eqn:Es; auto.
  - apply Forall_app. split; [done|]. by repeat constructor.
Qed.

(** When [add] leaves a single slot, that slot is the new one. *)
Lemma add_slots_single ts ss : length (add_slots ts ss) = 1 → add_slots ts ss = [ts].
Proof.
  unfold add_slots. destruct (existsb empty ss) eqn:Ex.
  - rewrite length_map. destruct ss as [|c [|? ?]]; [done| |done]. intros _.
    simpl in *. rewrite orb_false_r in Ex. unfold refill. by rewrite Ex.
  - rewrite length_app; simpl. destruct ss; simpl; [done|lia].
Qed.

Lemma lower_bound_add key item e t :
  lower_bound (nextExp t) (slots t) →
  lower_bound (nextExp (add key item e t).1) (slots (add key item e t).1).
Proof.
  intros Hlb. destruct (keys t !! key) as [i|] eqn:Hk.
  - unfold add. by rewrite Hk.
  - destruct (add_unfold key item e t Hk) as (idx & -> & _); simpl.
    set (ts := mkSlot item e false).
    destruct (time.After (nextExp t) e) eqn:Ha; simpl.
    + apply lower_bound_add_slots; [apply time_le_refl|].
      eapply lower_bound_mono; [|exact Hlb]. by apply time_After_le.
    + destruct (length (add_slots ts (slots t)) =? 1) eqn:Hl.
      * apply Nat.eqb_eq, add_slots_single in Hl. rewrite Hl.
        repeat constructor. intros _. apply time_le_refl.
      * by apply lower_bound_add_slots.
Qed.

Lemma clean_loop_lower_bound clock ss i ex ne fne :
  let r := clean_loop clock i ss ex ne fne in
  (fne = false → time.le r.2 ne) ∧ lower_bound r.2 r.1.1.
Proof.
  revert i ex ne fne. induction ss as [|c rest IH]; intros i ex ne fne; simpl.
  - split; [intros _; apply time_le_refl|constructor].
  - destruct (empty c) eqn:Ec; simpl.
    + specialize (IH (S i) ex ne fne).
      destruct (clean_loop clock (S i) rest ex ne fne) as [[r x] n]. simpl in *.
      destruct IH as [H1 H2]. split; [done|]. constructor; [|done]. congruence.
    + destruct (time.After (clock i) (ExpiresAt c)).
      * specialize (IH (S i) (ex ++ [c]) ne fne).
        destruct (clean_loop clock (S i) rest (ex ++ [c]) ne fne) as [[r x] n].
        simpl in *. destruct IH as [H1 H2]. split; [done|]. constructor; [|done].
        simpl. congruence.
      * set (n1 := if fne then ExpiresAt c else ne).
        set (n2 := if time.After n1 (ExpiresAt c) then ExpiresAt c else n1).
        assert (time.le n2 (ExpiresAt c)) as Hc.
        { unfold n2. destruct (time.After n1 (ExpiresAt c)) eqn:Ha;
            [apply time_le_refl|exact Ha]. }
        assert (time.le n2 n1) as Hn.
        { unfold n2. destruct (time.After n1 (ExpiresAt c)) eqn:Ha;
            [by apply time_After_le|apply time_le_refl]. }
        specialize (IH (S i) ex n2 false).
        destruct (clean_loop clock (S i) rest ex n2 false) as [[r x] n]. simpl in *.
        destruct IH as [H1 H2]. specialize (H1 eq_refl). split.
        -- intros ->. eapply time_le_trans; [exact H1|]. exact Hn.
        -- constructor; [|done]. intros _. eapply time_le_trans; eauto.
Qed.

Lemma lower_bound_clean clock t :
  lower_bound (nextExp (clean clock t).1) (slots (clean clock t).1).
Proof.
  pose proof (clean_loop_lower_bound clock (slots t) 0 [] time.zero true) as [_ H].
  unfold clean. by destruct (clean_loop clock 0 (slots t) [] time.zero true) as [[r x] n].
Qed.

Lemma lower_bound_janitor now clock t :
  lower_bound (nextExp t) (slots t) →
  lower_bound (nextExp (janitor now clock t).1) (slots (janitor now clock t).1).
Proof.
  intros Hlb. unfold janitor. destruct (time.After now (nextExp t)); [|done].
  pose proof (lower_bound_clean clock t). by destruct (clean clock t).
Qed.

Lemma lower_bound_delete key t t' err :
  delete key t = Done (t', err) →
  lower_bound (nextExp t) (slots t) → lower_bound (nextExp t') (slots t').
Proof.
  unfold delete. destruct (keys t !! key) as [idx|]; [|by intros [= <- _]].
  destruct (slots t !! idx) as [s|]; [|done]. intros [= <- _] Hlb; simpl.
  by apply Forall_insert.
Qed.

Lemma lower_bound_update key item t t' err :
  update key item t = Done (t', err) →
  lower_bound (nextExp t) (slots t) → lower_bound (nextExp t') (slots t').
Proof.
  unfold update. destruct (keys t !! key) as [idx|]; [|by intros [= <- _]].
  destruct (slots t !! idx) as [s|] eqn:Hs; [|done]. intros [= <- _] Hlb; simpl.
  apply Forall_insert; [done|]. simpl.
  eapply (proj1 (Forall_lookup _ _) Hlb); eauto.
Qed.

Lemma lower_bound_extend key d t t' err :
  extend key d t = Done (t', err) →
  lower_bound (nextExp t) (slots t) → lower_bound (nextExp t') (slots t').
Proof.
  unfold extend. destruct (keys t !! key) as [idx|]; [|by intros [= <- _]].
  destruct (slots t !! idx) as [s|] eqn:Hs; [|done]. intros [= <- _] Hlb; simpl.
  destruct (time.After (nextExp t) (time.Add (ExpiresAt s) d)) eqn:Ha.
  - apply Forall_insert; [|intros _; apply time_le_refl].
    eapply lower_bound_mono; [|exact Hlb]. by apply time_After_le.
  - apply Forall_insert; [done|]. by intros _.
Qed.

Lemma lower_bound_get key t t' r :
  get key t = Done (t', r) →
  lower_bound (nextExp t) (slots t) → lower_bound (nextExp t') (slots t').
Proof.
  unfold get. destruct (keys t !! key) as [idx|]; [|by intros [= <- _]].
  destruct (slots t !! idx) as [s|]; [|done]. destruct (empty s); [by intros [= <- _]|].
  destruct (Refresh (config t)); [|by intros [= <- _]].
  destruct (extend key (RefreshDuration (config t)) t) as [[t1 [e1|]]|] eqn:He; [..|done].
  - intros [= <- _]. by eapply lower_bound_extend.
  - intros [= <- _]. by eapply lower_bound_extend.
Qed.


Lemma reachable_Add key item ttl now t : reachable t → reachable (Add key item ttl now t).1.
Proof. apply reach_add. Qed.

Lemma reachable_wf t : reachable t → wf t.
Proof.
  induction 1 as [cfg|key item e t _ IH|key t t' r _ IH Hop|key item t t' err _ IH Hop
                  |key d t t' err _ IH Hop|key t t' err _ IH Hop|clock t _ IH
                  |now clock t _ IH].
  - apply wf_NewCache.
  - by apply wf_add.
  - by apply (wf_get key t t' r).
  - by apply (wf_update key item t t' err).
  - by apply (wf_extend key d t t' err).
  - by apply (wf_delete key t t' err).
  - by apply wf_clean.
  - by apply wf_janitor.
Qed.

Lemma reachable_lower_bound t : reachable t → lower_bound (nextExp t) (slots t).
Proof.
  induction 1 as [cfg|key item e t _ IH|key t t' r _ IH Hop|key item t t' err _ IH Hop
                  |key d t t' err _ IH Hop|key t t' err _ IH Hop|clock t _ IH
                  |now clock t _ IH].
  - constructor.
  - by apply lower_bound_add.
  - by apply (lower_bound_get key t t' r).
  - by apply (lower_bound_update key item t t' err).
  - by apply (lower_bound_extend key d t t' err).
  - by apply (lower_bound_delete key t t' err).
  - apply lower_bound_clean.
  - by apply lower_bound_janitor.
Qed.

(** ** Lookup *)

Lemma get_error_nil key t t' v err :
  get key t = Done (t', (v, Some err)) → v = None.
Proof.
  unfold get. destruct (keys t !! key) as [idx|]; [|by intros [= _ <- _]].
  destruct (slots t !! idx) as [s|]; [|done]. destruct (empty s); [by intros [= _ <- _]|].
  destruct (Refresh (config t)); [|done].
  destruct (extend key (RefreshDuration (config t)) t) as [[t1 [e1|]]|]; [..|done].
  - by intros [= _ <- _].
  - done.
Qed.

Lemma get_at_slot t key idx s :
  keys t !! key = Some idx → slots t !! idx = Some s →
  (empty s = true →
     get key t = Done (mkCache (slots t) (base.delete key (keys t)) (nextExp t) (config t),
                       (None, Some ErrDNE)))
  ∧ (empty s = false →
     ∃ t', get key t = Done (t', (Item s, None)) ∧ keys t' = keys t).
Proof.
  intros Hk Hs. unfold get. rewrite Hk, Hs. split; intros ->; [done|].
  destruct (Refresh (config t)); [|by eexists].
  unfold extend. rewrite Hk, Hs. by eexists.
Qed.

(** C1 (as amended): for a key of the index, [get] looks at the empty
    flag of the slot and at nothing else.  When the slot is empty the
    call fails with [ErrDNE] and takes the key out of the index; when it
    is not, the call returns the stored value and keeps the key, whatever
    the expiration of the slot: no instant is compared with it. *)
Theorem get_checks_empty_flag_only t key idx s :
  keys t !! key = Some idx → slots t !! idx = Some s →
  (empty s = true →
     get key t = Done (mkCache (slots t) (base.delete key (keys t)) (nextExp t) (config t),
                       (None, Some ErrDNE)))
  ∧ (empty s = false →
     ∃ t', get key t = Done (t', (Item s, None)) ∧ keys t' = keys t).
Proof. apply get_at_slot. Qed.

(** C2: in every state a store can reach, [nextExp] is not after the
    expiration of any slot that is not empty and that a key of the index
    points to. *)
Theorem nextExp_never_stale_high t key idx s :
  reachable t →
  keys t !! key = Some idx → slots t !! idx = Some s → empty s = false →
  time.le (nextExp t) (ExpiresAt s).
Proof.
  intros Hr _ Hs Es. apply reachable_lower_bound in Hr.
  by eapply (proj1 (Forall_lookup _ _) Hr).
Qed.

(** C5: [Add] of a key whose fingerprint is in the index fails with
    [ErrCollision] and returns the store as it was; in particular the
    second of two [Add] of the same key does, and what the first one
    stored stays. *)
Theorem Add_collision_leaves_store t key :
  (∀ idx item ttl now,
     keys t !! fnv.Sum64a key = Some idx →
     Add key item ttl now t = (t, Some ErrCollision))
  ∧ (∀ item ttl now t1,
       Add key item ttl now t = (t1, None) →
       ∀ item2 ttl2 now2, Add key item2 ttl2 now2 t1 = (t1, Some ErrCollision)).
Proof.
  split.
  - intros idx item ttl now Hk. unfold Add, add. by rewrite Hk.
  - intros item ttl now t1. unfold Add.
    destruct (keys t !! fnv.Sum64a key) as [i|] eqn:Hk.
    + unfold add at 1. by rewrite Hk.
    + set (e := if (ttl =? 0)%Z then _ else _).
      destruct (add_unfold (fnv.Sum64a key) item e t Hk) as (idx & -> & _).
      intros [= <-] item2 ttl2 now2. unfold add; simpl. by rewrite lookup_insert_eq.
Qed.

(** C6 (as amended): [update] of a key that is not in the index fails
    with [ErrDNE] and changes nothing.  For a key of the index it
    succeeds and the new store differs from the old one in the [Item] of
    the key's slot only.  A [get] of the key then returns the new value
    when that slot is not empty, and fails with [ErrDNE] when it is. *)
Theorem update_replaces_item_only t key item :
  (keys t !! key = None → update key item t = Done (t, Some ErrDNE))
  ∧ (∀ idx s,
       keys t !! key = Some idx → slots t !! idx = Some s →
       let t' := mkCache (<[idx := mkSlot item (ExpiresAt s) (empty s)]> (slots t))
                         (keys t) (nextExp t) (config t) in
       update key item t = Done (t', None)
       ∧ (empty s = false → ∃ t'', get key t' = Done (t'', (item, None)))
       ∧ (empty s = true → ∃ t'', get key t' = Done (t'', (None, Some ErrDNE)))).
Proof.
  split.
  - intros Hk. unfold update. by rewrite Hk.
  - intros idx s Hk Hs t'.
    assert (slots t' !! idx = Some (mkSlot item (ExpiresAt s) (empty s))) as Hs'.
    { simpl. apply list_lookup_insert_eq. by eapply lookup_lt_Some. }
    split; [unfold update; by rewrite Hk, Hs|].
    split; intros Es.
    + destruct (get_at_slot t' key idx _ Hk Hs') as [_ H].
      destruct (H Es) as (t'' & Hg & _). by exists t''.
    + destruct (get_at_slot t' key idx _ Hk Hs') as [H _].
      rewrite (H Es). by eexists.
Qed.

(** ** The sweep *)

Lemma clean_loop_cons clock (c : Slot V) (rest : list (Slot V)) i ex ne fne :
  ∃ ex' ne' fne',
    (clean_loop clock i (c :: rest) ex ne fne).1.1
    = swept clock i c :: (clean_loop clock (S i) rest ex' ne' fne').1.1.
Proof.
  simpl. unfold swept. destruct (empty c); simpl.
  - exists ex, ne, fne. by destruct (clean_loop clock (S i) rest ex ne fne) as [[r x] n].
  - destruct (time.After (clock i) (ExpiresAt c)).
    + exists (ex ++ [c]), ne, fne.
      by destruct (clean_loop clock (S i) rest (ex ++ [c]) ne fne) as [[r x] n].
    + match goal with |- context [clean_loop clock (S i) rest ex ?n false] =>
        exists ex, n, false;
        by destruct (clean_loop clock (S i) rest ex n false) as [[r x] n'] end.
Qed.

Lemma clean_loop_lookup clock ss i ex ne fne j :
  (clean_loop clock i ss ex ne fne).1.1 !! j = swept clock (i + j) <$> ss !! j.
Proof.
  revert i ex ne fne j. induction ss as [|c rest IH]; intros i ex ne fne j; [done|].
  destruct (clean_loop_cons clock c rest i ex ne fne) as (ex' & ne' & fne' & ->).
  destruct j as [|j]; simpl.
  - by rewrite Nat.add_0_r.
  - rewrite IH. by replace (S i + j) with (i + S j) by lia.
Qed.

Lemma clean_lookup clock t j :
  slots (clean clock t).1 !! j = swept clock j <$> slots t !! j.
Proof. rewrite clean_slots. apply clean_loop_lookup. Qed.

(** A slot whose expiration is [time.Unix(math.MaxInt64, 0)] is
    tombstoned by every sweep whose clock reads an instant from year 1
    on. *)
Lemma sentinel_swept clock t j s :
  slots t !! j = Some s → empty s = false →
  ExpiresAt s = time.Unix GoInt.MaxInt64 0 →
  (0 ≤ time.ext (clock j))%Z →
  slots (clean clock t).1 !! j = Some (tombstone s).
Proof.
  intros Hs Es He Hc. rewrite clean_lookup, Hs. simpl. unfold swept.
  by rewrite Es, He, After_Unix_MaxInt64.
Qed.

Lemma add_free key item e t : keys t !! key = None → (add key item e t).2 = None.
Proof. intros Hk. by destruct (add_unfold key item e t Hk) as (idx & -> & _). Qed.

(** C9 (as amended): a sweep leaves the index as it is, so the key of a
    slot it tombstones stays in the index.  In that state [add] of the
    key fails with [ErrCollision].  A [get] of the key (which fails with
    [ErrDNE]) and a [delete] of the key (which succeeds) both take the
    key out of the index, after which [add] of the key succeeds;
    [update] and [extend] of the key succeed and leave the index alone. *)
Theorem sweep_keeps_stale_key t clock key idx s :
  keys t !! key = Some idx → slots t !! idx = Some s → empty s = false →
  time.After (clock idx) (ExpiresAt s) = true →
  let t1 := (clean clock t).1 in
  keys t1 = keys t
  ∧ slots t1 !! idx = Some (tombstone s)
  ∧ (∀ item e, add key item e t1 = (t1, Some ErrCollision))
  ∧ (∃ t2, get key t1 = Done (t2, (None, Some ErrDNE))
           ∧ keys t2 !! key = None ∧ ∀ item e, (add key item e t2).2 = None)
  ∧ (∃ t3, delete key t1 = Done (t3, None)
           ∧ keys t3 !! key = None ∧ ∀ item e, (add key item e t3).2 = None)
  ∧ (∀ item, ∃ t4, update key item t1 = Done (t4, None) ∧ keys t4 = keys t1)
  ∧ (∀ d, ∃ t4, extend key d t1 = Done (t4, None) ∧ keys t4 = keys t1).
Proof.
  intros Hk Hs Es Ha t1.
  assert (keys t1 = keys t) as Hkeys by apply clean_keys.
  assert (slots t1 !! idx = Some (tombstone s)) as Hs1.
  { unfold t1. rewrite clean_lookup, Hs. simpl. unfold swept. by rewrite Es, Ha. }
  assert (keys t1 !! key = Some idx) as Hk1 by by rewrite Hkeys.
  split; [done|]. split; [done|]. split.
  { intros item e. unfold add. by rewrite Hk1. }
  split.
  { destruct (get_at_slot t1 key idx _ Hk1 Hs1) as [H _]. rewrite (H eq_refl).
    eexists. split; [done|]. simpl. split; [apply lookup_delete_eq|].
    intros item e. apply add_free. simpl. apply lookup_delete_eq. }
  split.
  { unfold delete. rewrite Hk1, Hs1. eexists. split; [done|]. simpl.
    split; [apply lookup_delete_eq|].
    intros item e. apply add_free. simpl. apply lookup_delete_eq. }
  split.
  - intros item. unfold update. rewrite Hk1, Hs1. by eexists.
  - intros d. unfold extend. rewrite Hk1, Hs1. by eexists.
Qed.

End StoreFacts.

(** * Properties of buckets and of their iterator *)

Lemma pk_unfold name key : Bucket.pk name key = name +:+ String "-" key.
Proof. reflexivity. Qed.

Lemma append_nil (s : string) : "" +:+ s = s.
Proof. reflexivity. Qed.

Lemma append_cons c (s1 s2 : string) : String c s1 +:+ s2 = String c (s1 +:+ s2).
Proof. reflexivity. Qed.

Lemma has_sep_pk name key : has_sep (Bucket.pk name key) = true.
Proof.
  rewrite pk_unfold. induction name as [|c name IH].
  - by rewrite append_nil.
  - rewrite append_cons. simpl. rewrite IH. apply orb_true_r.
Qed.

Lemma pk_injective name1 key1 name2 key2 :
  has_sep name1 = false → has_sep name2 = false →
  Bucket.pk name1 key1 = Bucket.pk name2 key2 → name1 = name2 ∧ key1 = key2.
Proof.
  rewrite !pk_unfold. revert name2.
  induction name1 as [|c1 n1 IH]; intros [|c2 n2];
    rewrite ?append_nil, ?append_cons; simpl.
  - intros _ _ [= ->]. done.
  - intros _ [Hc _]%orb_false_elim [= <- _]. done.
  - intros [Hc _]%orb_false_elim _ [= -> _]. done.
  - intros [_ H1]%orb_false_elim [_ H2]%orb_false_elim [= -> Heq].
    destruct (IH n2 H1 H2 Heq) as [-> ->]. done.
Qed.

Section BucketFacts.
Context {V : Type}.
Implicit Types (t : Cache V) (b : Bucket.Bucket) (it : bucketIterator.bucketIterator V).

(** C7 (as amended): every method of a bucket works on the fingerprint
    of the one string [b.name + "-" + key].  Two pairs of a bucket name
    and a key give the same string only when they are the same pair,
    provided that neither bucket name contains ["-"]; and the string of
    a pair differs from every flat key that does not contain ["-"]. *)
Theorem composite_key_injective_without_separator b key :
  let hk := fnv.Sum64a (Bucket.name b +:+ "-" +:+ key) in
  (∀ item d now t,
     Bucket.Add key item d now b t
     = (if negb (Bucket.contains hk (Bucket.list b))
        then Bucket.mkBucket (Bucket.name b) (Bucket.list b ++ [hk]) else b,
        (add hk item (time.Add now d) t).1, (add hk item (time.Add now d) t).2))
  ∧ (∀ t, Bucket.Get key b t = get hk t)
  ∧ (∀ item t, Bucket.Update key item b t = update hk item t)
  ∧ (∀ d t, Bucket.Extend key d b t = extend hk d t)
  ∧ (∀ t, Bucket.Delete key b t
          = match delete hk t with
            | Panic => Panic
            | Done (t', err) =>
                Done (Bucket.mkBucket (Bucket.name b)
                        (Bucket.remove_first hk (Bucket.list b)), t', err)
            end)
  ∧ (∀ b2 key2,
       has_sep (Bucket.name b) = false → has_sep (Bucket.name b2) = false →
       Bucket.name b +:+ "-" +:+ key = Bucket.name b2 +:+ "-" +:+ key2 →
       Bucket.name b = Bucket.name b2 ∧ key = key2)
  ∧ (∀ flat, has_sep flat = false → Bucket.name b +:+ "-" +:+ key ≠ flat).
Proof.
  intros hk.
  split; [|split; [done|split; [done|split; [done|split; [done|split]]]]].
  - intros item d now t. unfold Bucket.Add, Bucket.pk. fold hk.
    by destruct (add hk item (time.Add now d) t) as [t1 err].
  - intros b2 key2 H1 H2 Heq. by apply (pk_injective _ _ _ _ H1 H2 Heq).
  - intros flat Hf <-. fold (Bucket.pk (Bucket.name b) key) in Hf.
    by rewrite has_sep_pk in Hf.
Qed.

(** C10: [Bucket.Add] hands [now + expiresIn] to [add] for every
    duration: the slot of an entry it stores expires at that instant, and
    at the instant of the call itself when the duration is zero. *)
Theorem Bucket_Add_expires_at_now_plus_duration key item d now b t b' t' :
  Bucket.Add key item d now b t = (b', t', None) →
  (∃ idx, keys t' !! fnv.Sum64a (Bucket.pk (Bucket.name b) key) = Some idx
          ∧ slots t' !! idx = Some (mkSlot item (time.Add now d) false))
  ∧ (time.valid now → d = 0%Z →
     ∃ idx, keys t' !! fnv.Sum64a (Bucket.pk (Bucket.name b) key) = Some idx
            ∧ slots t' !! idx = Some (mkSlot item now false)).
Proof.
  unfold Bucket.Add. set (hk := fnv.Sum64a _). intros Hadd.
  assert (∃ idx, keys t' !! hk = Some idx
                 ∧ slots t' !! idx = Some (mkSlot item (time.Add now d) false)) as Hslot.
  { destruct (keys t !! hk) as [i|] eqn:Hk.
    - unfold add in Hadd. by rewrite Hk in Hadd.
    - destruct (add_unfold hk item (time.Add now d) t Hk) as (idx & Heq & _ & Hs).
      rewrite Heq in Hadd. injection Hadd as _ <-. exists idx. simpl.
      split; [apply lookup_insert_eq|done]. }
  split; [done|]. intros Hv ->. by rewrite time_Add_zero in Hslot.
Qed.

Lemma reachable_Bucket_Add key item d now b t :
  reachable t → reachable (Bucket.Add key item d now b t).1.2.
Proof.
  intros Hr. unfold Bucket.Add. set (hk := fnv.Sum64a _).
  pose proof (reach_add hk item (time.Add now d) t Hr) as H.
  by destruct (add hk item (time.Add now d) t).
Qed.

(** ** Iteration *)

Lemma Next_exhausted b it t :
  length (Bucket.list b) ≤ bucketIterator.position it →
  bucketIterator.Next b it t = Done (false, it, t).
Proof.
  intros Hp. unfold bucketIterator.Next.
  by rewrite (proj2 (Nat.ltb_ge _ _) Hp).
Qed.

Lemma run_Next_exhausted n b it t :
  length (Bucket.list b) ≤ bucketIterator.position it →
  run_Next n b it t
  = Done (replicate n (false, bucketIterator.key it, bucketIterator.Item it), it, t).
Proof.
  intros Hp. induction n as [|n IH]; simpl; [done|].
  by rewrite Next_exhausted, IH.
Qed.

Lemma run_Next_from suf : ∀ pre b it t,
  Bucket.list b = pre ++ suf → bucketIterator.position it = length pre → wf t →
  ∃ vs it' t',
    resolve suf t = Done (vs, t')
    ∧ run_Next (length suf) b it t = Done (zip_with visit suf vs, it', t')
    ∧ length vs = length suf
    ∧ bucketIterator.position it' = length (Bucket.list b)
    ∧ wf t'.
Proof.
  induction suf as [|k suf IH]; intros pre b it t Hl Hp Hwf.
  - exists [], it, t. simpl. repeat split; try done.
    by rewrite Hl, app_nil_r.
  - destruct (get_returns k t Hwf) as [[t1 [v e]] Hg].
    pose proof (wf_get k t t1 (v, e) Hwf Hg) as Hwf1.
    destruct (IH (pre ++ [k]) b (bucketIterator.mkIter k v (S (length pre))) t1)
      as (vs & it' & t' & Hres & Hrun & Hlen & Hpos & Hwf'); [..|done|].
    { by rewrite <- app_assoc. }
    { rewrite length_app; simpl. lia. }
    exists (v :: vs), it', t'. simpl. rewrite Hg, Hres.
    unfold bucketIterator.Next. rewrite Hp, Hl.
    assert ((length pre <? length (pre ++ k :: suf)) = true) as ->.
    { apply Nat.ltb_lt. rewrite length_app; simpl. lia. }
    rewrite list_lookup_middle by done. rewrite Hg, Hrun. simpl.
    repeat split; try done; [by rewrite Hlen|by rewrite <- Hl].
Qed.

(** C8: on a store whose index points inside its slots, [length list]
    calls of [Next] on a fresh iterator all return [true]; the [i]-th of
    them shows the [i]-th fingerprint of the list together with what the
    store's [get] yielded for it, asked in that order.  [get] yields the
    nil value when it reports an error, and [Next] drops the error.
    Every later call returns [false] and changes nothing.  The list is in
    insertion order: [Bucket.Add] puts a fingerprint it does not find in
    the list at its end. *)
Theorem iterator_visits_list_in_order b t :
  wf t →
  (∃ vs it' t',
     resolve (Bucket.list b) t = Done (vs, t')
     ∧ length vs = length (Bucket.list b)
     ∧ run_Next (length (Bucket.list b)) b bucketIterator.Iterator t
       = Done (zip_with visit (Bucket.list b) vs, it', t')
     ∧ bucketIterator.position it' = length (Bucket.list b)
     ∧ ∀ n, run_Next n b it' t'
            = Done (replicate n (false, bucketIterator.key it', bucketIterator.Item it'),
                    it', t'))
  ∧ (∀ k t0 t1 v err, get k t0 = Done (t1, (v, Some err)) → v = None)
  ∧ (∀ key item d now t0,
       let hk := fnv.Sum64a (Bucket.pk (Bucket.name b) key) in
       Bucket.list (Bucket.Add key item d now b t0).1.1
       = if Bucket.contains hk (Bucket.list b) then Bucket.list b
         else Bucket.list b ++ [hk]).
Proof.
  intros Hwf. split; [|split].
  - destruct (run_Next_from (Bucket.list b) [] b bucketIterator.Iterator t)
      as (vs & it' & t' & Hres & Hrun & Hlen & Hpos & _); [done..|].
    exists vs, it', t'. repeat split; try done.
    intros n. apply run_Next_exhausted. lia.
  - intros k t0 t1 v err. apply get_error_nil.
  - intros key item d now t0 hk. unfold Bucket.Add. fold hk.
    destruct (add hk item (time.Add now d) t0) as [t1 err]. simpl.
    by destruct (Bucket.contains hk (Bucket.list b)).
Qed.

End BucketFacts.

(** * The properties at work on concrete stores *)

Section Examples.
Local Open Scope string_scope.

(** C1, as first stated, fails: one hour after the entry expired, with no
    sweep in between, [Get] still returns its value. *)
Lemma Get_returns_value_past_expiration :
  keys one_second !! fnv.Sum64a "k" = Some 0
  ∧ slots one_second !! 0 = Some (mkSlot (Some "v") (later 1) false)
  ∧ time.After (later 3600) (later 1) = true
  ∧ Get "k" one_second = Done (one_second, (Some "v", None)).
Proof. vm_compute. repeat split. Qed.

Lemma get_checks_empty_flag_only_witness :
  keys one_second !! fnv.Sum64a "k" = Some 0
  ∧ slots one_second !! 0 = Some (mkSlot (Some "v") (later 1) false)
  ∧ ((empty (mkSlot (Some "v") (later 1) false) = true →
      get (fnv.Sum64a "k") one_second
      = Done (mkCache (slots one_second) (base.delete (fnv.Sum64a "k") (keys one_second))
                      (nextExp one_second) (config one_second), (None, Some ErrDNE)))
     ∧ (empty (mkSlot (Some "v") (later 1) false) = false →
        ∃ t', get (fnv.Sum64a "k") one_second
              = Done (t', (Item (mkSlot (Some "v") (later 1) false), None))
              ∧ keys t' = keys one_second)).
Proof.
  split; [vm_compute; reflexivity|]. split; [vm_compute; reflexivity|].
  apply (get_checks_empty_flag_only one_second (fnv.Sum64a "k") 0);
    vm_compute; reflexivity.
Defined.

Lemma two_entries_reachable : reachable two_entries.
Proof. unfold two_entries. do 2 apply reachable_Add. apply reach_NewCache. Qed.

Lemma nextExp_never_stale_high_witness :
  reachable two_entries
  ∧ keys two_entries !! fnv.Sum64a "a" = Some 0
  ∧ slots two_entries !! 0 = Some (mkSlot (Some "va") (later 60) false)
  ∧ empty (mkSlot (Some "va") (later 60) false) = false
  ∧ time.le (nextExp two_entries) (ExpiresAt (mkSlot (Some "va") (later 60) false)).
Proof.
  split; [apply two_entries_reachable|].
  split; [vm_compute; reflexivity|]. split; [vm_compute; reflexivity|].
  split; [reflexivity|].
  apply (nextExp_never_stale_high two_entries (fnv.Sum64a "a") 0);
    [apply two_entries_reachable|vm_compute; reflexivity..].
Defined.

(** [nextExp] can be stale-low: once ["b"] is deleted the only slot in
    use expires a minute after [now0], and [nextExp] still reads one
    second after [now0]. *)
Lemma nextExp_can_be_stale_low :
  Delete "b" two_entries
  = Done (mkCache [mkSlot (Some "va") (later 60) false; mkSlot (Some "vb") (later 1) true]
                  {[ fnv.Sum64a "a" := 0 ]} (later 1) defaultConfig, None)
  ∧ time.After (later 60) (later 1) = true.
Proof. vm_compute. repeat split. Qed.

(** C3: the entry [Add] stores for a zero duration expires at
    [time.Unix(math.MaxInt64, 0)].  The seconds of that instant wrapped
    around, every instant of our era is after it, and the first wake-up
    of the janitor tombstones the entry and hands its value to the
    expiration callback. *)
Theorem Add_zero_duration_entry_is_swept :
  let t := (Add "k" (Some "v") 0%Z now0 fresh).1 in
  let never := time.Unix GoInt.MaxInt64 0 in
  let t' := mkCache [mkSlot (Some "v") never true] (keys t) time.zero defaultConfig in
  slots t = [mkSlot (Some "v") never false]
  ∧ nextExp t = never
  ∧ never = time.mkTime (-9223371974719179009) 0
  ∧ time.After (later 10) never = true
  ∧ janitor (later 10) (at_ (later 10)) t = (t', [Some "v"])
  ∧ Get "k" t'
    = Done (mkCache [mkSlot (Some "v") never true] ∅ time.zero defaultConfig,
            (None, Some ErrDNE)).
Proof. vm_compute. repeat split. Qed.

(** C4: with two empty slots in the slice, [Add] writes the new entry
    into both of them; the index points to the second.  The next sweep
    after the entry expired reports its value twice. *)
Theorem Add_overwrites_every_empty_slot :
  let tb := (Add "b" (Some "vb") time.Minute now0
               (Add "a" (Some "va") time.Minute now0 fresh).1).1 in
  let t1 := mkCache [mkSlot (Some "va") (later 60) true; mkSlot (Some "vb") (later 60) false]
                    {[ fnv.Sum64a "b" := 1 ]} (later 60) defaultConfig in
  let t2 := mkCache [mkSlot (Some "va") (later 60) true; mkSlot (Some "vb") (later 60) true]
                    ∅ (later 60) defaultConfig in
  let tc := mkCache [mkSlot (Some "vc") (later 60) false; mkSlot (Some "vc") (later 60) false]
                    {[ fnv.Sum64a "c" := 1 ]} (later 60) defaultConfig in
  Delete "a" tb = Done (t1, None)
  ∧ Delete "b" t1 = Done (t2, None)
  ∧ Add "c" (Some "vc") time.Minute now0 t2 = (tc, None)
  ∧ (janitor (later 120) (at_ (later 120)) tc).2 = [Some "vc"; Some "vc"].
Proof. vm_compute. repeat split. Qed.

Lemma Add_collision_leaves_store_witness :
  keys one_second !! fnv.Sum64a "k" = Some 0
  ∧ Add "k" (Some "v") time.Second now0 fresh = (one_second, None)
  ∧ Add "k" (Some "w") time.Minute (later 1) one_second = (one_second, Some ErrCollision)
  ∧ Add "k" (Some "w") 0%Z (later 2) one_second = (one_second, Some ErrCollision).
Proof.
  split; [vm_compute; reflexivity|]. split; [vm_compute; reflexivity|]. split.
  - apply (proj1 (Add_collision_leaves_store one_second "k") 0). vm_compute; reflexivity.
  - apply (proj2 (Add_collision_leaves_store fresh "k") (Some "v") time.Second now0).
    vm_compute; reflexivity.
Defined.

(** C6, as first stated, fails: the key of a slot the janitor tombstoned
    is still in the index, [Update] of it succeeds, and the [Get] that
    follows fails with [ErrDNE] instead of returning the new value. *)
Lemma Get_after_Update_of_swept_key :
  let h := fnv.Sum64a "k" in
  let t2 := mkCache [mkSlot (Some "v2") (later 1) true] {[ h := 0 ]} time.zero defaultConfig in
  let t3 := mkCache [mkSlot (Some "v2") (later 1) true] ∅ time.zero defaultConfig in
  after_sweep = mkCache [mkSlot (Some "v") (later 1) true] {[ h := 0 ]} time.zero defaultConfig
  ∧ keys after_sweep !! h = Some 0
  ∧ Update "k" (Some "v2") after_sweep = Done (t2, None)
  ∧ Get "k" t2 = Done (t3, (None, Some ErrDNE)).
Proof. vm_compute. repeat split. Qed.

Lemma update_replaces_item_only_witness :
  fresh.(keys) !! fnv.Sum64a "k" = None
  ∧ update (fnv.Sum64a "k") (Some "v2") fresh = Done (fresh, Some ErrDNE)
  ∧ keys one_second !! fnv.Sum64a "k" = Some 0
  ∧ slots one_second !! 0 = Some (mkSlot (Some "v") (later 1) false)
  ∧ (let t' := mkCache (<[0 := mkSlot (Some "v2") (later 1) false]> (slots one_second))
                       (keys one_second) (nextExp one_second) (config one_second) in
     update (fnv.Sum64a "k") (Some "v2") one_second = Done (t', None)
     ∧ ∃ t'', get (fnv.Sum64a "k") t' = Done (t'', (Some "v2", None))).
Proof.
  split; [vm_compute; reflexivity|].
  split; [apply (proj1 (update_replaces_item_only fresh (fnv.Sum64a "k") (Some "v2")));
          vm_compute; reflexivity|].
  split; [vm_compute; reflexivity|]. split; [vm_compute; reflexivity|].
  destruct (proj2 (update_replaces_item_only one_second (fnv.Sum64a "k") (Some "v2"))
              0 (mkSlot (Some "v") (later 1) false)) as (Hu & Hg & _);
    [vm_compute; reflexivity..|].
  split; [exact Hu|]. apply Hg. reflexivity.
Defined.

(** C7, as first stated, fails: two different pairs of a bucket name and
    a key give the same composite string, and so does a pair and a flat
    key; an entry added under the flat key makes [Bucket.Add] of the
    pair collide. *)
Lemma composite_keys_coincide :
  ("a", "b-c") ≠ ("a-b", "c")
  ∧ Bucket.pk "a" "b-c" = Bucket.pk "a-b" "c"
  ∧ fnv.Sum64a (Bucket.pk "a" "b-c") = fnv.Sum64a (Bucket.pk "a-b" "c")
  ∧ Bucket.pk "a" "b" = "a-b"
  ∧ fnv.Sum64a (Bucket.pk "a" "b") = fnv.Sum64a "a-b"
  ∧ (Bucket.Add "b" (Some "scoped") time.Minute now0 (Bucket.mkBucket "a" [])
       (Add "a-b" (Some "flat") time.Minute now0 fresh).1).2 = Some ErrCollision.
Proof. split; [discriminate|]. vm_compute. repeat split. Qed.

Lemma composite_key_injective_without_separator_witness :
  has_sep "a" = false ∧ has_sep "b" = false ∧ has_sep "ax" = false
  ∧ ("a" +:+ "-" +:+ "x" = "b" +:+ "-" +:+ "y" → "a" = "b" ∧ "x" = "y")
  ∧ "a" +:+ "-" +:+ "x" ≠ "ax".
Proof.
  pose proof (composite_key_injective_without_separator (V:=string)
                (Bucket.mkBucket "a" []) "x") as (_ & _ & _ & _ & _ & Hinj & Hflat).
  split; [reflexivity|]. split; [reflexivity|]. split; [reflexivity|]. split.
  - apply (Hinj (Bucket.mkBucket "b" []) "y"); reflexivity.
  - apply (Hflat "ax"). reflexivity.
Defined.

Lemma bucket_xy_wf : wf bucket_xy.2.
Proof.
  apply reachable_wf. unfold bucket_xy. simpl.
  do 2 apply reachable_Bucket_Add. apply reach_NewCache.
Qed.

(** The bucket scenario: two entries, [Len] is 2, the iterator shows
    both values in insertion order and the third [Next] returns false. *)
Lemma bucket_xy_iteration :
  Bucket.Len bucket_xy.1 = 2
  ∧ run_Next 3 bucket_xy.1 bucketIterator.Iterator bucket_xy.2
    = Done ([(true, fnv.Sum64a "b-x", Some "1");
             (true, fnv.Sum64a "b-y", Some "2");
             (false, fnv.Sum64a "b-y", Some "2")],
            bucketIterator.mkIter (fnv.Sum64a "b-y") (Some "2") 2, bucket_xy.2).
Proof. vm_compute. split; reflexivity. Qed.

Lemma iterator_visits_list_in_order_witness :
  wf bucket_xy.2
  ∧ ∃ vs it' t',
      resolve (Bucket.list bucket_xy.1) bucket_xy.2 = Done (vs, t')
      ∧ length vs = length (Bucket.list bucket_xy.1)
      ∧ run_Next (length (Bucket.list bucket_xy.1)) bucket_xy.1
          bucketIterator.Iterator bucket_xy.2
        = Done (zip_with visit (Bucket.list bucket_xy.1) vs, it', t')
      ∧ bucketIterator.position it' = length (Bucket.list bucket_xy.1)
      ∧ ∀ n, run_Next n bucket_xy.1 it' t'
             = Done (replicate n (false, bucketIterator.key it', bucketIterator.Item it'),
                     it', t').
Proof.
  split; [apply bucket_xy_wf|].
  apply (iterator_visits_list_in_order bucket_xy.1 bucket_xy.2 bucket_xy_wf).
Defined.

(** C9, as first stated, fails: after the sweep, [Delete] of the key
    succeeds and takes the stale key out of the index, and the [Add] that
    follows succeeds with no [Get] in between. *)
Lemma Delete_clears_stale_key :
  let h := fnv.Sum64a "k" in
  let t2 := mkCache [mkSlot (Some "v") (later 1) true] ∅ time.zero defaultConfig in
  keys after_sweep !! h = Some 0
  ∧ slots after_sweep !! 0 = Some (mkSlot (Some "v") (later 1) true)
  ∧ Delete "k" after_sweep = Done (t2, None)
  ∧ Add "k" (Some "w") time.Minute (later 20) t2
    = (mkCache [mkSlot (Some "w") (later 80) false] {[ h := 0 ]} (later 80) defaultConfig,
       None).
Proof. vm_compute. repeat split. Qed.

Lemma sweep_keeps_stale_key_witness :
  keys one_second !! fnv.Sum64a "k" = Some 0
  ∧ slots one_second !! 0 = Some (mkSlot (Some "v") (later 1) false)
  ∧ time.After (at_ (later 10) 0) (later 1) = true
  ∧ keys (clean (at_ (later 10)) one_second).1 = keys one_second
  ∧ slots (clean (at_ (later 10)) one_second).1 !! 0
    = Some (mkSlot (Some "v") (later 1) true)
  ∧ add (fnv.Sum64a "k") (Some "w") (later 70) (clean (at_ (later 10)) one_second).1
    = ((clean (at_ (later 10)) one_second).1, Some ErrCollision).
Proof.
  split; [vm_compute; reflexivity|]. split; [vm_compute; reflexivity|].
  split; [vm_compute; reflexivity|].
  destruct (sweep_keeps_stale_key one_second (at_ (later 10)) (fnv.Sum64a "k") 0
              (mkSlot (Some "v") (later 1) false))
    as (Hk & Hs & Ha & _); [vm_compute; reflexivity..|].
  split; [exact Hk|]. split; [exact Hs|]. apply Ha.
Defined.

Lemma Bucket_Add_expires_at_now_plus_duration_witness :
  Bucket.Add "x" (Some "1") 0%Z now0 (Bucket.mkBucket "b" []) fresh
  = (Bucket.mkBucket "b" [fnv.Sum64a "b-x"],
     mkCache [mkSlot (Some "1") now0 false] {[ fnv.Sum64a "b-x" := 0 ]} now0 defaultConfig,
     None)
  ∧ time.valid now0
  ∧ ∃ idx,
      (({[ fnv.Sum64a "b-x" := 0 ]} : gmap Z nat) !! fnv.Sum64a (Bucket.pk "b" "x") = Some idx)
      ∧ [mkSlot (Some "1") now0 false] !! idx = Some (mkSlot (Some "1") now0 false).
Proof.
  assert (Bucket.Add "x" (Some "1") 0%Z now0 (Bucket.mkBucket "b" []) fresh
          = (Bucket.mkBucket "b" [fnv.Sum64a "b-x"],
             mkCache [mkSlot (Some "1") now0 false] {[ fnv.Sum64a "b-x" := 0 ]} now0
                     defaultConfig, None)) as Hadd by (vm_compute; reflexivity).
  assert (time.valid now0) as Hv by (vm_compute; repeat split; discriminate).
  split; [exact Hadd|]. split; [exact Hv|].
  apply (proj2 (Bucket_Add_expires_at_now_plus_duration _ _ _ _ _ _ _ _ Hadd) Hv eq_refl).
Defined.

End Examples.

(** * Further properties of the slot store *)

Section StoreMore.
Context {V : Type}.
Implicit Types (t : Cache V) (s ts : Slot V) (ss : list (Slot V)).

(** What a successful [add] leaves: the key points to a slot that holds
    the new entry. *)
Lemma add_ok key item e t t1 :
  add key item e t = (t1, None) →
  keys t !! key = None
  ∧ ∃ idx, keys t1 = <[key := idx]> (keys t)
           ∧ slots t1 = add_slots (mkSlot item e false) (slots t)
           ∧ slots t1 !! idx = Some (mkSlot item e false)
           ∧ config t1 = config t.
Proof.
  intros Hadd. destruct (keys t !! key) as [i|] eqn:Hk.
  - unfold add in Hadd. by rewrite Hk in Hadd.
  - split; [done|]. destruct (add_unfold key item e t Hk) as (idx & Heq & _ & Hs).
    rewrite Heq in Hadd. injection Hadd as <-. by exists idx.
Qed.

(** A key that is not in the index makes [get], [delete], [update] and
    [extend] fail with [ErrDNE] and leaves the store as it is. *)
Lemma missing_key t key :
  keys t !! key = None →
  get key t = Done (t, (None, Some ErrDNE))
  ∧ delete key t = Done (t, Some ErrDNE)
  ∧ (∀ item, update key item t = Done (t, Some ErrDNE))
  ∧ (∀ d, extend key d t = Done (t, Some ErrDNE)).
Proof.
  intros Hk. unfold get, delete, update, extend. by rewrite Hk.
Qed.

(** X1: after an [Add] that succeeded, [Get] of the same key returns
    the value that was added, with a nil error. *)
Theorem Add_then_Get key item ttl now t t1 :
  Add key item ttl now t = (t1, None) →
  ∃ t2, Get key t1 = Done (t2, (item, None)).
Proof.
  unfold Add, Get. intros (_ & idx & Hk & _ & Hs & _)%add_ok.
  destruct (get_at_slot t1 (fnv.Sum64a key) idx _
              ltac:(rewrite Hk; apply lookup_insert_eq) Hs) as [_ H].
  destruct (H eq_refl) as (t2 & Hg & _). by exists t2.
Qed.

(** X2: after an [Add] that succeeded, [Delete] of the key succeeds and
    keeps the slot slice at its length; then [Get] and a second [Delete]
    of the key both fail with [ErrDNE]. *)
Theorem Add_then_Delete key item ttl now t t1 :
  Add key item ttl now t = (t1, None) →
  ∃ t2, Delete key t1 = Done (t2, None)
        ∧ length (slots t2) = length (slots t1)
        ∧ Get key t2 = Done (t2, (None, Some ErrDNE))
        ∧ Delete key t2 = Done (t2, Some ErrDNE).
Proof.
  unfold Add, Get, Delete. intros (_ & idx & Hk & _ & Hs & _)%add_ok.
  unfold delete at 1. rewrite Hk, lookup_insert_eq, Hs. eexists. split; [done|].
  simpl. split; [apply length_insert|].
  match goal with |- get _ ?t2 = _ ∧ _ =>
    destruct (missing_key t2 (fnv.Sum64a key)) as (Hg & Hd & _);
      [apply lookup_delete_eq|by split] end.
Qed.

Lemma add_slots_length_eq ts ss :
  length (add_slots ts ss)
  = if existsb empty ss then length ss else S (length ss).
Proof.
  unfold add_slots. destruct (existsb empty ss).
  - apply length_map.
  - rewrite length_app. simpl. lia.
Qed.

(** X3: [add] is the only method that changes the length of the slot
    slice, and it appends one slot exactly when the key is free and no
    slot is empty; [get], [update], [extend], [delete] and [clean] keep
    the length. *)
Theorem slots_grow_only_by_add t :
  (∀ key item e,
     length (slots (add key item e t).1)
     = match keys t !! key with
       | Some _ => length (slots t)
       | None => if existsb empty (slots t) then length (slots t)
                 else S (length (slots t))
       end)
  ∧ (∀ key t' r, get key t = Done (t', r) → length (slots t') = length (slots t))
  ∧ (∀ key item t' r, update key item t = Done (t', r) → length (slots t') = length (slots t))
  ∧ (∀ key d t' r, extend key d t = Done (t', r) → length (slots t') = length (slots t))
  ∧ (∀ key t' r, delete key t = Done (t', r) → length (slots t') = length (slots t))
  ∧ (∀ clock, length (slots (clean clock t).1) = length (slots t)).
Proof.
  assert (∀ key d t' r, extend key d t = Done (t', r) →
                        length (slots t') = length (slots t)) as Hext.
  { intros key d t' r. unfold extend. destruct (keys t !! key) as [idx|]; [|by intros [= <- _]].
    destruct (slots t !! idx) as [s|]; [|done]. intros [= <- _]. apply length_insert. }
  split; [|split; [|split; [|split; [done|split]]]].
  - intros key item e. destruct (keys t !! key) as [i|] eqn:Hk.
    + unfold add. by rewrite Hk.
    + destruct (add_unfold key item e t Hk) as (idx & -> & _). simpl.
      apply add_slots_length_eq.
  - intros key t' r. unfold get. destruct (keys t !! key) as [idx|]; [|by intros [= <- _]].
    destruct (slots t !! idx) as [s|]; [|done]. destruct (empty s); [by intros [= <- _]|].
    destruct (Refresh (config t)); [|by intros [= <- _]].
    destruct (extend key (RefreshDuration (config t)) t) as [[t1 [e1|]]|] eqn:He; [..|done];
      intros [= <- _]; by eapply Hext.
  - intros key item t' r. unfold update.
    destruct (keys t !! key) as [idx|]; [|by intros [= <- _]].
    destruct (slots t !! idx) as [s|]; [|done]. intros [= <- _]. apply length_insert.
  - intros key t' r. unfold delete. destruct (keys t !! key) as [idx|]; [|by intros [= <- _]].
    destruct (slots t !! idx) as [s|]; [|done]. intros [= <- _]. apply length_insert.
  - intros clock. rewrite clean_slots. apply clean_loop_length.
Qed.

(** X4: on a store that can be reached no call panics: the positions
    the index holds are positions of the slice, for [get], [delete],
    [update], [extend] and for the [Next] of every iterator. *)
Theorem reachable_store_never_panics t :
  reachable t →
  (∀ key, get key t ≠ Panic)
  ∧ (∀ key, delete key t ≠ Panic)
  ∧ (∀ key item, update key item t ≠ Panic)
  ∧ (∀ key d, extend key d t ≠ Panic)
  ∧ (∀ b it, bucketIterator.Next b it t ≠ Panic).
Proof.
  intros Hwf%reachable_wf. repeat split.
  - intros key. by destruct (get_returns key t Hwf) as [r ->].
  - intros key. by destruct (delete_returns key t Hwf) as [r ->].
  - intros key item. by destruct (update_returns key item t Hwf) as [r ->].
  - intros key d. by destruct (extend_returns key d t Hwf) as [r ->].
  - intros b it. unfold bucketIterator.Next.
    destruct (bucketIterator.position it <? length (Bucket.list b)) eqn:Hp; [|done].
    apply Nat.ltb_lt, lookup_lt_is_Some_2 in Hp. destruct Hp as [k ->].
    by destruct (get_returns k t Hwf) as [[t' [v e]] ->].
Qed.

(** X5: a call at one key leaves every other key of the index where it
    is: [add], [get] and [delete] change the index at their own key at
    most, [update] and [extend] do not change the index at all. *)
Theorem other_keys_stay_in_index t key key' :
  key ≠ key' →
  (∀ item e, keys (add key' item e t).1 !! key = keys t !! key)
  ∧ (∀ t' r, get key' t = Done (t', r) → keys t' !! key = keys t !! key)
  ∧ (∀ t' r, delete key' t = Done (t', r) → keys t' !! key = keys t !! key)
  ∧ (∀ item t' r, update key' item t = Done (t', r) → keys t' = keys t)
  ∧ (∀ d t' r, extend key' d t = Done (t', r) → keys t' = keys t).
Proof.
  intros Hne.
  assert (∀ d t' r, extend key' d t = Done (t', r) → keys t' = keys t) as Hext.
  { intros d t' r. unfold extend. destruct (keys t !! key') as [idx|]; [|by intros [= <- _]].
    destruct (slots t !! idx) as [s|]; [|done]. by intros [= <- _]. }
  split; [|split; [|split; [|split; [|done]]]].
  - intros item e. destruct (keys t !! key') as [i|] eqn:Hk.
    + unfold add. by rewrite Hk.
    + destruct (add_unfold key' item e t Hk) as (idx & -> & _). simpl.
      by apply lookup_insert_ne.
  - intros t' r. unfold get. destruct (keys t !! key') as [idx|]; [|by intros [= <- _]].
    destruct (slots t !! idx) as [s|]; [|done]. destruct (empty s).
    + intros [= <- _]. simpl. by apply lookup_delete_ne.
    + destruct (Refresh (config t)); [|by intros [= <- _]].
      destruct (extend key' (RefreshDuration (config t)) t) as [[t1 [e1|]]|] eqn:He;
        [..|done]; intros [= <- _]; by rewrite (Hext _ _ _ He).
  - intros t' r. unfold delete. destruct (keys t !! key') as [idx|]; [|by intros [= <- _]].
    destruct (slots t !! idx) as [s|]; [|done]. intros [= <- _]. simpl.
    by apply lookup_delete_ne.
  - intros item t' r. unfold update.
    destruct (keys t !! key') as [idx|]; [|by intros [= <- _]].
    destruct (slots t !! idx) as [s|]; [|done]. by intros [= <- _].
Qed.

Lemma existsb_empty_lookup ss idx s :
  ss !! idx = Some s → empty s = true → existsb empty ss = true.
Proof.
  revert idx. induction ss as [|c rest IH]; intros [|idx]; simpl; try done.
  - intros [= ->] ->. done.
  - intros Hs Es. rewrite (IH idx Hs Es). apply orb_true_r.
Qed.

(** X6: a key left in the index on an empty slot reads the entry of the
    next [add]: when another, free key is added, the new entry is
    written into that slot too, and [get] of the old key returns the
    value stored for the new one. *)
Theorem stale_key_reads_next_entry t key1 key2 idx s item e :
  keys t !! key1 = Some idx → slots t !! idx = Some s → empty s = true →
  keys t !! key2 = None →
  ∃ t2, get key1 (add key2 item e t).1 = Done (t2, (item, None)).
Proof.
  intros Hk1 Hs Es Hk2.
  assert (key2 ≠ key1) as Hne by congruence.
  destruct (add_unfold key2 item e t Hk2) as (idx2 & -> & _). simpl.
  set (ts := mkSlot item e false).
  match goal with |- ∃ t2, get key1 ?t1 = _ =>
    destruct (get_at_slot t1 key1 idx ts) as [_ H] end.
  - simpl. by rewrite lookup_insert_ne.
  - simpl. unfold add_slots. rewrite (existsb_empty_lookup _ _ _ Hs Es).
    rewrite list_lookup_fmap, Hs. simpl. unfold refill. by rewrite Es.
  - destruct (H eq_refl) as (t2 & Hg & _). by exists t2.
Qed.

(** X7: [get] of a key whose slot is in use leaves the store alone when
    [Refresh] is off; when it is on, the store [get] leaves is the one
    [extend] by [RefreshDuration] leaves, and the value returned is the
    one stored. *)
Theorem get_refreshes_by_extend t key idx s :
  keys t !! key = Some idx → slots t !! idx = Some s → empty s = false →
  (Refresh (config t) = false → get key t = Done (t, (Item s, None)))
  ∧ (Refresh (config t) = true →
     ∃ t', extend key (RefreshDuration (config t)) t = Done (t', None)
           ∧ get key t = Done (t', (Item s, None))
           ∧ slots t' !! idx
             = Some (mkSlot (Item s)
                            (time.Add (ExpiresAt s) (RefreshDuration (config t))) false)).
Proof.
  intros Hk Hs Es. unfold get. rewrite Hk, Hs, Es. split; intros ->; [done|].
  unfold extend. rewrite Hk, Hs. eexists. split; [done|]. split; [done|].
  simpl. rewrite Es. apply list_lookup_insert_eq. by eapply lookup_lt_Some.
Qed.

(** ** More on the sweep *)

(** What a sweep at the instant [now] leaves of a slot. *)
Lemma swept_due now i s :
  swept (λ _, now) i s = if due now s then tombstone s else s.
Proof. reflexivity. Qed.

Lemma due_swept now i s : due now (swept (λ _, now) i s) = false.
Proof.
  rewrite swept_due. destruct (due now s) eqn:Hd; [|done].
  unfold due. simpl. done.
Qed.

Lemma clean_loop_expired now ss i ex ne fne :
  (clean_loop (λ _, now) i ss ex ne fne).1.2 = ex ++ List.filter (due now) ss.
Proof.
  revert i ex ne fne. induction ss as [|c rest IH]; intros i ex ne fne; simpl.
  - by rewrite app_nil_r.
  - unfold due at 1. destruct (empty c); simpl.
    + specialize (IH (S i) ex ne fne).
      by destruct (clean_loop (λ _, now) (S i) rest ex ne fne) as [[r x] n].
    + destruct (time.After now (ExpiresAt c)).
      * specialize (IH (S i) (ex ++ [c]) ne fne).
        destruct (clean_loop (λ _, now) (S i) rest (ex ++ [c]) ne fne) as [[r x] n].
        simpl in *. by rewrite IH, <- app_assoc.
      * match goal with |- context [clean_loop _ (S i) rest ex ?n false] =>
          specialize (IH (S i) ex n false);
          by destruct (clean_loop (λ _, now) (S i) rest ex n false) as [[r x] n'] end.
Qed.

Lemma clean_slots_map now t :
  slots (clean (λ _, now) t).1
  = map (λ s, if due now s then tombstone s else s) (slots t).
Proof.
  apply list_eq. intros j. rewrite clean_lookup, list_lookup_fmap.
  by destruct (slots t !! j).
Qed.

Lemma sweep_expires_due_slots_aux now t :
  (clean (λ _, now) t).2 = List.filter (due now) (slots t)
  ∧ slots (clean (λ _, now) t).1
    = map (λ s, if due now s then tombstone s else s) (slots t)
  ∧ keys (clean (λ _, now) t).1 = keys t
  ∧ config (clean (λ _, now) t).1 = config t.
Proof.
  split; [|split; [apply clean_slots_map|split; [apply clean_keys|]]].
  - pose proof (clean_loop_expired now (slots t) 0 [] time.zero true) as H.
    unfold clean.
    by destruct (clean_loop (λ _, now) 0 (slots t) [] time.zero true) as [[r x] n].
  - unfold clean.
    by destruct (clean_loop (λ _, now) 0 (slots t) [] time.zero true) as [[r x] n].
Qed.

(** X8: a sweep during which the clock reads [now] returns, in the
    order of the slice, the slots in use whose expiration [now] is
    after; it sets the empty flag of these slots and changes nothing else
    in the slice, in the index or in the configuration. *)
Theorem sweep_expires_due_slots now t :
  (clean (λ _, now) t).2 = List.filter (due now) (slots t)
  ∧ slots (clean (λ _, now) t).1
    = map (λ s, if due now s then tombstone s else s) (slots t)
  ∧ keys (clean (λ _, now) t).1 = keys t
  ∧ config (clean (λ _, now) t).1 = config t.
Proof. apply sweep_expires_due_slots_aux. Qed.

Lemma filter_due_swept now ss :
  List.filter (due now) (map (swept (λ _, now) 0) ss) = [].
Proof.
  induction ss as [|c rest IH]; simpl; [done|]. by rewrite due_swept.
Qed.

Lemma clean_loop_nearest_swept now ss : ∀ i i' ex ex' ne fne,
  (clean_loop (λ _, now) i (map (swept (λ _, now) 0) ss) ex ne fne).2
  = (clean_loop (λ _, now) i' ss ex' ne fne).2.
Proof.
  induction ss as [|c rest IH]; intros i i' ex ex' ne fne; simpl; [done|].
  rewrite swept_due. unfold due. destruct (empty c) eqn:Ec; simpl.
  - rewrite Ec. simpl. specialize (IH (S i) (S i') ex ex' ne fne).
    destruct (clean_loop _ (S i) _ ex ne fne) as [[r x] n].
    by destruct (clean_loop _ (S i') rest ex' ne fne) as [[r' x'] n'].
  - destruct (time.After now (ExpiresAt c)) eqn:Ha; simpl.
    + specialize (IH (S i) (S i') ex (ex' ++ [c]) ne fne).
      destruct (clean_loop _ (S i) _ ex ne fne) as [[r x] n].
      by destruct (clean_loop _ (S i') rest (ex' ++ [c]) ne fne) as [[r' x'] n'].
    + rewrite Ec, Ha. simpl.
      match goal with |- context [clean_loop _ (S i') rest ex' ?n false] =>
        specialize (IH (S i) (S i') ex ex' n false);
        destruct (clean_loop _ (S i) _ ex n false) as [[r x] n1];
        by destruct (clean_loop _ (S i') rest ex' n false) as [[r' x'] n'] end.
Qed.

Lemma clean_nextExp clock t :
  nextExp (clean clock t).1 = (clean_loop clock 0 (slots t) [] time.zero true).2.
Proof.
  unfold clean. by destruct (clean_loop clock 0 (slots t) [] time.zero true) as [[r x] n].
Qed.

Lemma clean_config clock t : config (clean clock t).1 = config t.
Proof.
  unfold clean. by destruct (clean_loop clock 0 (slots t) [] time.zero true) as [[r x] n].
Qed.

Lemma Cache_eq t t' :
  slots t = slots t' → keys t = keys t' → nextExp t = nextExp t' →
  config t = config t' → t = t'.
Proof. destruct t, t'; simpl. by intros -> -> -> ->. Qed.

(** X9: a second sweep at the same instant finds no slot to expire and
    leaves the store as the first sweep left it. *)
Theorem sweep_twice_same_instant now t :
  clean (λ _, now) (clean (λ _, now) t).1 = ((clean (λ _, now) t).1, []).
Proof.
  set (t1 := (clean (λ _, now) t).1).
  assert (slots t1 = map (swept (λ _, now) 0) (slots t)) as Hs1.
  { unfold t1. rewrite clean_slots_map. apply map_ext. intros s. by rewrite swept_due. }
  assert (List.filter (due now) (slots t1) = []) as Hnone.
  { rewrite Hs1. apply filter_due_swept. }
  assert (map (λ s, if due now s then tombstone s else s) (slots t1) = slots t1) as Hid.
  { rewrite Hs1. rewrite map_map. apply map_ext. intros s. by rewrite due_swept. }
  destruct (sweep_expires_due_slots_aux now t1) as (Hex & Hss & Hk & Hc).
  rewrite (surjective_pairing (clean (λ _, now) t1)). f_equal.
  - apply Cache_eq; [by rewrite Hss|done| |done].
    rewrite clean_nextExp, Hs1. unfold t1. rewrite clean_nextExp.
    apply clean_loop_nearest_swept.
  - by rewrite Hex.
Qed.


Lemma wrap64_add_cases e q :
  (GoInt.MinInt64 ≤ e ≤ GoInt.MaxInt64)%Z → (0 ≤ q ≤ GoInt.MaxInt64 + 1)%Z →
  ((e + q ≤ GoInt.MaxInt64)%Z ∧ GoInt.wrap64 (e + q) = (e + q)%Z)
  ∨ ((GoInt.MaxInt64 < e + q)%Z ∧ GoInt.wrap64 (e + q) = (e + q - 2 ^ 64)%Z).
Proof.
  unfold GoInt.MinInt64, GoInt.MaxInt64, GoInt.wrap64. intros He Hq.
  destruct (Z_le_gt_dec (e + q) (2 ^ 63 - 1)) as [Hle|Hgt].
  - left. split; [done|]. rewrite Z.mod_small; lia.
  - right. split; [lia|].
    replace (e + q + 2 ^ 63)%Z with ((e + q - 2 ^ 63) + 1 * 2 ^ 64)%Z by lia.
    rewrite Z.mod_add by lia. rewrite Z.mod_small; lia.
Qed.

Ltac case_if_Z :=
  match goal with
  | |- context [if ?c then _ else _] =>
      match c with
      | context [Z.ltb ?a ?b] => destruct (Z.ltb_spec a b)
      | context [Z.leb ?a ?b] => destruct (Z.leb_spec a b)
      | context [Z.eqb ?a ?b] => destruct (Z.eqb_spec a b)
      end; simpl
  end.

Ltac case_cmp_Z :=
  match goal with
  | |- context [Z.ltb ?a ?b] => destruct (Z.ltb_spec a b); simpl
  | |- context [Z.leb ?a ?b] => destruct (Z.leb_spec a b); simpl
  | |- context [Z.eqb ?a ?b] => destruct (Z.eqb_spec a b); simpl
  end.

Lemma time_Add_nonneg (a : time.Time) d :
  roomy a → (0 ≤ d ≤ GoInt.MaxInt64)%Z → time.le a (time.Add a d).
Proof.
  destruct a as [e n]. unfold roomy; simpl. intros [He Hn] Hd.
  pose proof (Z.quot_rem' d 1000000000) as Hqr.
  pose proof (Z.rem_bound_pos d 1000000000 ltac:(lia) ltac:(lia)) as Hr.
  assert (0 ≤ Z.quot d 1000000000)%Z as Hq0 by (apply Z.quot_pos; lia).
  unfold time.le, time.After, time.Add, time.addSec; simpl.
  set (q := Z.quot d 1000000000) in *. set (r := Z.rem d 1000000000) in *.
  unfold GoInt.MaxInt64 in *.
  assert (GoInt.MinInt64 ≤ e ≤ GoInt.MaxInt64)%Z as He'
    by (unfold GoInt.MinInt64, GoInt.MaxInt64; lia).
  destruct (wrap64_add_cases e q He' ltac:(unfold GoInt.MaxInt64; lia)) as [[H1 ->]|[H1 _]];
    [|unfold GoInt.MaxInt64 in *; lia].
  destruct (wrap64_add_cases e (q + 1) He' ltac:(unfold GoInt.MaxInt64; lia))
    as [[H2 ->]|[H2 _]]; [|unfold GoInt.MaxInt64 in *; lia].
  unfold GoInt.MaxInt64, GoInt.MinInt64 in *.
  repeat case_if_Z; try lia; repeat case_cmp_Z; lia.
Qed.

Lemma clean_loop_nearest_attained clock ss : ∀ i ex ne fne,
  let r := clean_loop clock i ss ex ne fne in
  let live := ∃ s, s ∈ r.1.1 ∧ empty s = false ∧ r.2 = ExpiresAt s in
  (r.2 = ne ∨ live)
  ∧ (fne = true → (∃ s, s ∈ r.1.1 ∧ empty s = false) → live).
Proof.
  induction ss as [|c rest IH]; intros i ex ne fne; simpl.
  - split; [by left|]. intros _ (s & Hs & _). by apply elem_of_nil in Hs.
  - destruct (empty c) eqn:Ec; simpl.
    + specialize (IH (S i) ex ne fne).
      destruct (clean_loop clock (S i) rest ex ne fne) as [[r x] n]. simpl in *.
      destruct IH as [HA HB]. split.
      * destruct HA as [->|(s & Hs & Es & Hn)]; [by left|].
        right. exists s. split; [by apply list_elem_of_further|done].
      * intros Hf (s & Hs & Es). apply elem_of_cons in Hs as [->|Hs]; [congruence|].
        destruct (HB Hf) as (s' & Hs' & Es' & Hn); [by exists s|].
        exists s'. split; [by apply list_elem_of_further|done].
    + destruct (time.After (clock i) (ExpiresAt c)).
      * specialize (IH (S i) (ex ++ [c]) ne fne).
        destruct (clean_loop clock (S i) rest (ex ++ [c]) ne fne) as [[r x] n].
        simpl in *. destruct IH as [HA HB]. split.
        -- destruct HA as [->|(s & Hs & Es & Hn)]; [by left|].
           right. exists s. split; [by apply list_elem_of_further|done].
        -- intros Hf (s & Hs & Es). apply elem_of_cons in Hs as [->|Hs]; [done|].
           destruct (HB Hf) as (s' & Hs' & Es' & Hn); [by exists s|].
           exists s'. split; [by apply list_elem_of_further|done].
      * set (n1 := if fne then ExpiresAt c else ne).
        set (n2 := if time.After n1 (ExpiresAt c) then ExpiresAt c else n1).
        assert (n2 = ExpiresAt c ∨ (fne = false ∧ n2 = ne)) as Hn2.
        { unfold n2, n1. destruct fne.
          - left. by destruct (time.After _ _).
          - destruct (time.After ne (ExpiresAt c)); [by left|by right]. }
        specialize (IH (S i) ex n2 false).
        destruct (clean_loop clock (S i) rest ex n2 false) as [[r x] n]. simpl in *.
        destruct IH as [HA _].
        assert (n = ne ∧ fne = false
                ∨ ∃ s, s ∈ c :: r ∧ empty s = false ∧ n = ExpiresAt s) as H.
        { destruct HA as [->|(s & Hs & Es & Hn)].
          - destruct Hn2 as [->|[-> ->]]; [|by left].
            right. exists c. split; [apply list_elem_of_here|done].
          - right. exists s. split; [by apply list_elem_of_further|done]. }
        split.
        -- destruct H as [[-> _]|H]; [by left|by right].
        -- intros -> _. by destruct H as [[_ ?]|H].
Qed.

(** X10: the [nextExp] a sweep leaves is the expiration of one of the
    slots still in use, whenever there is one, and is not after the
    expiration of any of them: it is their minimum.  When no slot is in
    use it is the zero instant. *)
Theorem sweep_sets_nextExp_to_nearest clock t :
  ((∃ s, s ∈ slots (clean clock t).1 ∧ empty s = false) →
   ∃ s, s ∈ slots (clean clock t).1 ∧ empty s = false
        ∧ nextExp (clean clock t).1 = ExpiresAt s
        ∧ ∀ s', s' ∈ slots (clean clock t).1 → empty s' = false →
                time.le (ExpiresAt s) (ExpiresAt s'))
  ∧ ((∀ s, s ∈ slots (clean clock t).1 → empty s = true) →
     nextExp (clean clock t).1 = time.zero).
Proof.
  pose proof (clean_loop_nearest_attained clock (slots t) 0 [] time.zero true) as [HA HB].
  pose proof (lower_bound_clean clock t) as Hlb.
  rewrite clean_nextExp, clean_slots in *. simpl in *. split.
  - intros Hex. destruct (HB eq_refl Hex) as (s & Hs & Es & Hn).
    exists s. repeat split; try done. intros s' Hs' Es'. rewrite <- Hn.
    by apply (proj1 (Forall_forall _ _) Hlb s').
  - intros Hall. destruct HA as [->|(s & Hs & Es & _)]; [done|].
    rewrite (Hall s Hs) in Es. done.
Qed.

(** X11: when the janitor finds [now] not after [nextExp] and skips the
    sweep, it misses nothing: on a store that can be reached, a sweep at
    [now] would expire no slot and leave the slots as they are. *)
Theorem closed_gate_misses_nothing now t :
  reachable t → time.After now (nextExp t) = false →
  janitor now (λ _, now) t = (t, [])
  ∧ (clean (λ _, now) t).2 = []
  ∧ slots (clean (λ _, now) t).1 = slots t.
Proof.
  intros Hr Hgate. split; [unfold janitor; by rewrite Hgate|].
  apply reachable_lower_bound in Hr.
  assert (Forall (λ s, due now s = false) (slots t)) as Hnone.
  { eapply Forall_impl; [exact Hr|]. intros s Hle; simpl in *. unfold due.
    destruct (empty s); [done|]. simpl.
    apply (time_le_trans now (nextExp t) (ExpiresAt s)); [exact Hgate|by apply Hle]. }
  destruct (sweep_expires_due_slots_aux now t) as (-> & -> & _). clear Hr.
  induction Hnone as [|s ss Hs _ IH]; simpl; [done|].
  rewrite Hs. destruct IH as [-> ->]. done.
Qed.

(** X12: an entry that [Add] stored for a positive duration at [now]
    expires no earlier than [now], and [Get] still returns it after every
    sweep whose clock readings are not after its expiration. *)
Theorem entry_survives_until_expiry key item ttl now t t1 :
  roomy now → (0 < ttl ≤ GoInt.MaxInt64)%Z →
  Add key item ttl now t = (t1, None) →
  time.le now (time.Add now ttl)
  ∧ ∀ clock, (∀ i, time.le (clock i) (time.Add now ttl)) →
      ∃ t2, Get key (clean clock t1).1 = Done (t2, (item, None)).
Proof.
  intros Hroomy Httl. unfold Add, Get.
  destruct (Z.eqb_spec ttl 0) as [->|_]; [lia|].
  intros (_ & idx & Hk & _ & Hs & _)%add_ok.
  split; [apply time_Add_nonneg; [done|lia]|].
  intros clock Hclock.
  match goal with |- ∃ t2, get ?k ?t' = _ =>
    destruct (get_at_slot t' k idx (mkSlot item (time.Add now ttl) false)) as [_ H] end.
  - rewrite clean_keys, Hk. apply lookup_insert_eq.
  - rewrite clean_lookup, Hs. simpl. unfold swept. simpl. by rewrite Hclock.
  - destruct (H eq_refl) as (t2 & Hg & _). by exists t2.
Qed.

End StoreMore.

(** * Further properties of buckets *)

Lemma contains_elem_of hk (l : list Z) : Bucket.contains hk l = true ↔ hk ∈ l.
Proof.
  induction l as [|k rest IH]; simpl.
  - split; [done|by intros ?%elem_of_nil].
  - rewrite elem_of_cons. destruct (Z.eqb_spec k hk) as [->|Hne].
    + split; [by left|done].
    + rewrite IH. split; [by right|]. by intros [->|?].
Qed.

Lemma remove_first_NoDup hk (l : list Z) :
  NoDup l → Bucket.remove_first hk l = other_than hk l.
Proof.
  unfold other_than. induction 1 as [|k rest Hk Hnd IH]; simpl; [done|].
  destruct (Z.eqb_spec k hk) as [->|Hne]; simpl.
  - symmetry. clear IH Hnd. induction rest as [|x rest IH]; simpl; [done|].
    apply not_elem_of_cons in Hk as [Hx Hk].
    destruct (Z.eqb_spec x hk) as [->|_]; [done|]. simpl. by rewrite IH.
  - by rewrite IH.
Qed.

Lemma other_than_spec hk (l : list Z) x : x ∈ other_than hk l ↔ x ∈ l ∧ x ≠ hk.
Proof.
  unfold other_than. rewrite list_elem_of_In, filter_In, <- list_elem_of_In.
  destruct (Z.eqb_spec x hk); simpl; intuition congruence.
Qed.

Lemma other_than_NoDup hk (l : list Z) : NoDup l → NoDup (other_than hk l).
Proof.
  unfold other_than. induction 1 as [|k rest Hk Hnd IH]; simpl; [constructor|].
  destruct (Z.eqb_spec k hk); simpl; [done|]. constructor; [|done].
  intros [? _]%other_than_spec. done.
Qed.

Section BucketMore.
Context {V : Type}.
Implicit Types (t : Cache V) (b : Bucket.Bucket) (it : bucketIterator.bucketIterator V).

(** X13: [Bucket.Add] keeps the membership list free of duplicates and
    leaves the fingerprint of the key in it whatever the store answers:
    when the store already holds the fingerprint the call fails with
    [ErrCollision], the store is unchanged, and a fingerprint that was
    not in the list has been appended all the same. *)
Theorem Bucket_Add_list key item d now b t :
  let hk := fnv.Sum64a (Bucket.pk (Bucket.name b) key) in
  let b' := (Bucket.Add key item d now b t).1.1 in
  Bucket.name b' = Bucket.name b
  ∧ hk ∈ Bucket.list b'
  ∧ (NoDup (Bucket.list b) → NoDup (Bucket.list b'))
  ∧ (hk ∈ Bucket.list b → Bucket.list b' = Bucket.list b)
  ∧ (hk ∉ Bucket.list b → Bucket.list b' = Bucket.list b ++ [hk])
  ∧ (∀ i, keys t !! hk = Some i →
          (Bucket.Add key item d now b t).1.2 = t
          ∧ (Bucket.Add key item d now b t).2 = Some ErrCollision).
Proof.
  intros hk b'. unfold b', Bucket.Add. fold hk.
  destruct (add hk item (time.Add now d) t) as [t1 err] eqn:Hadd. simpl.
  assert (∀ i, keys t !! hk = Some i → t1 = t ∧ err = Some ErrCollision) as Hcol.
  { intros i Hi. unfold add in Hadd. rewrite Hi in Hadd. by injection Hadd as <- <-. }
  destruct (Bucket.contains hk (Bucket.list b)) eqn:Hc; simpl.
  - apply contains_elem_of in Hc.
    split; [done|]. split; [done|]. split; [done|]. split; [done|]. split; done.
  - assert (hk ∉ Bucket.list b) as Hn.
    { intros Hin%contains_elem_of. congruence. }
    split; [done|]. split; [apply elem_of_app; right; apply list_elem_of_here|].
    split; [|split; [done|split; done]].
    intros Hnd. apply NoDup_app. split; [done|]. split; [|apply NoDup_singleton].
    intros x Hx ->%list_elem_of_singleton. done.
Qed.

(** X14: [Bucket.Delete] cuts the first occurrence of the fingerprint
    out of the membership list, also when the store answers [ErrDNE].
    On a list without duplicates the fingerprint is then gone, the other
    fingerprints keep their order, and the list has no duplicates. *)
Theorem Bucket_Delete_list key b t b' t' err :
  let hk := fnv.Sum64a (Bucket.pk (Bucket.name b) key) in
  Bucket.Delete key b t = Done (b', t', err) →
  NoDup (Bucket.list b) →
  Bucket.list b' = other_than hk (Bucket.list b)
  ∧ (hk ∉ Bucket.list b')
  ∧ NoDup (Bucket.list b')
  ∧ (∀ x, x ≠ hk → x ∈ Bucket.list b → x ∈ Bucket.list b')
  ∧ (keys t !! hk = None → err = Some ErrDNE ∧ t' = t).
Proof.
  intros hk. unfold Bucket.Delete. fold hk. intros Hdel Hnd.
  assert (Bucket.list b' = other_than hk (Bucket.list b)) as Hl.
  { destruct (delete hk t) as [[t1 e1]|]; [|done]. injection Hdel as <- _ _. simpl.
    by apply remove_first_NoDup. }
  rewrite Hl. split; [done|]. split; [by intros [_ ?]%other_than_spec|].
  split; [by apply other_than_NoDup|]. split; [by intros x ? ?; apply other_than_spec|].
  intros Hk. unfold delete in Hdel. rewrite Hk in Hdel. by injection Hdel as _ <- <-.
Qed.

(** X15: after a [Bucket.Add] that succeeded, [Bucket.Get] of the key
    through the bucket returns the value added; and after a
    [Bucket.Update] of the key, which succeeds, it returns the new
    value. *)
Theorem Bucket_Add_then_Get key item d now b t b' t' :
  Bucket.Add key item d now b t = (b', t', None) →
  (∃ t2, Bucket.Get key b' t' = Done (t2, (item, None)))
  ∧ ∀ v, ∃ t2, Bucket.Update key v b' t' = Done (t2, None)
               ∧ ∃ t3, Bucket.Get key b' t2 = Done (t3, (v, None)).
Proof.
  unfold Bucket.Add, Bucket.Get, Bucket.Update.
  set (hk := fnv.Sum64a (Bucket.pk (Bucket.name b) key)).
  destruct (add hk item (time.Add now d) t) as [t1 err] eqn:Hadd.
  intros [= <- <- ->].
  assert (Bucket.name
            (if negb (Bucket.contains hk (Bucket.list b))
             then Bucket.mkBucket (Bucket.name b) (Bucket.list b ++ [hk]) else b)
          = Bucket.name b) as -> by by destruct (negb _).
  fold hk. apply add_ok in Hadd as (_ & idx & Hk & _ & Hs & _).
  assert (keys t1 !! hk = Some idx) as Hk1 by (rewrite Hk; apply lookup_insert_eq).
  split.
  - destruct (get_at_slot t1 hk idx _ Hk1 Hs) as [_ H].
    destruct (H eq_refl) as (t2 & Hg & _). by exists t2.
  - intros v. unfold update. rewrite Hk1, Hs. eexists. split; [done|].
    match goal with |- ∃ t3, get hk ?t2 = _ =>
      destruct (get_at_slot t2 hk idx (mkSlot v (time.Add now d) false)) as [_ H] end.
    + done.
    + simpl. apply list_lookup_insert_eq. by eapply lookup_lt_Some.
    + destruct (H eq_refl) as (t3 & Hg & _). by exists t3.
Qed.

Lemma get_ok_slot k t t' v :
  get k t = Done (t', (v, None)) →
  ∃ idx s, keys t' !! k = Some idx ∧ slots t' !! idx = Some s ∧ empty s = false.
Proof.
  unfold get. destruct (keys t !! k) as [idx|] eqn:Hk; [|done].
  destruct (slots t !! idx) as [s|] eqn:Hs; [|done].
  destruct (empty s) eqn:Es; [done|]. destruct (Refresh (config t)).
  - unfold extend. rewrite Hk, Hs. intros [= <- _]. simpl.
    exists idx, (mkSlot (Item s) (time.Add (ExpiresAt s) (RefreshDuration (config t)))
                        (empty s)).
    split; [done|]. split; [|exact Es].
    apply list_lookup_insert_eq. by eapply lookup_lt_Some.
  - intros [= <- _]. by exists idx, s.
Qed.

(** X16: when [Next] finds a fingerprint the store resolves without
    error, it returns true, shows the value and moves on by one; an
    [Update] through the iterator then succeeds, and the store returns
    the new value for that fingerprint. *)
Theorem iterator_Update_writes_visited_entry b it t k t' v0 :
  Bucket.list b !! bucketIterator.position it = Some k →
  get k t = Done (t', (v0, None)) →
  let it' := bucketIterator.mkIter k v0 (S (bucketIterator.position it)) in
  bucketIterator.Next b it t = Done (true, it', t')
  ∧ bucketIterator.Item it' = v0
  ∧ ∀ v, ∃ t2, bucketIterator.Update v it' t' = Done (t2, None)
               ∧ ∃ t3, get k t2 = Done (t3, (v, None)).
Proof.
  intros Hl Hg it'. split; [|split; [done|]].
  - unfold bucketIterator.Next. rewrite (proj2 (Nat.ltb_lt _ _) (lookup_lt_Some _ _ _ Hl)).
    by rewrite Hl, Hg.
  - intros v. apply get_ok_slot in Hg as (idx & s & Hk & Hs & Es).
    unfold bucketIterator.Update, update. simpl. rewrite Hk, Hs.
    eexists. split; [done|].
    match goal with |- ∃ t3, get k ?t2 = _ =>
      destruct (get_at_slot t2 k idx (mkSlot v (ExpiresAt s) false)) as [_ H] end.
    + done.
    + simpl. rewrite Es. apply list_lookup_insert_eq. by eapply lookup_lt_Some.
    + destruct (H eq_refl) as (t3 & Hg & _). by exists t3.
Qed.

(** X17: the iterator reads the list of its bucket at every call: an
    iterator that reached the end of the list returns false, and returns
    true again, showing the new fingerprint, once [Bucket.Add] has put a
    new key into the bucket. *)
Theorem exhausted_iterator_resumes key item d now b it t :
  let hk := fnv.Sum64a (Bucket.pk (Bucket.name b) key) in
  wf t →
  bucketIterator.position it = length (Bucket.list b) →
  hk ∉ Bucket.list b →
  bucketIterator.Next b it t = Done (false, it, t)
  ∧ ∃ v t2,
      bucketIterator.Next (Bucket.Add key item d now b t).1.1 it
        (Bucket.Add key item d now b t).1.2
      = Done (true, bucketIterator.mkIter hk v (S (length (Bucket.list b))), t2).
Proof.
  intros hk Hwf Hp Hn. split.
  - unfold bucketIterator.Next. rewrite Hp, Nat.ltb_irrefl. done.
  - unfold Bucket.Add. fold hk.
    pose proof (wf_add hk item (time.Add now d) t Hwf) as Hwf1.
    destruct (add hk item (time.Add now d) t) as [t1 err]. simpl in *.
    assert (Bucket.contains hk (Bucket.list b) = false) as ->.
    { destruct (Bucket.contains hk (Bucket.list b)) eqn:Hc; [|done].
      by apply contains_elem_of in Hc. }
    simpl. destruct (get_returns hk t1 Hwf1) as [[t2 [v e]] Hg].
    exists v, t2. unfold bucketIterator.Next. simpl. rewrite Hp, length_app. simpl.
    rewrite (proj2 (Nat.ltb_lt _ _)) by lia.
    rewrite lookup_app_r by lia. rewrite Nat.sub_diag. simpl. by rewrite Hg.
Qed.

End BucketMore.

(** * Properties of [Cache.Bucket] and of [NewCache] *)

Section CacheBucketFacts.
Context {U : Type}.
Implicit Types (w : CacheBucket.World U).

Lemma Add_zero_duration {V} key (item : any V) now (t : Cache V) :
  Add key item 0%Z now t = add (fnv.Sum64a key) item (time.Unix GoInt.MaxInt64 0) t.
Proof. reflexivity. Qed.

(** X18: [Bucket(name)] on a store that does not hold the name creates
    an empty bucket of that name, stores a pointer to it under the name
    with the expiration [Add] gives a zero duration, and returns the
    pointer; called again at once it returns the same pointer and creates
    nothing. *)
Theorem Bucket_creates_then_returns name w :
  keys (CacheBucket.cache w) !! fnv.Sum64a name = None →
  let p := length (CacheBucket.heap w) in
  ∃ w', CacheBucket.Bucket name w = Done (w', Some p)
        ∧ CacheBucket.heap w' = CacheBucket.heap w ++ [Bucket.mkBucket name []]
        ∧ (∃ idx, keys (CacheBucket.cache w') !! fnv.Sum64a name = Some idx
                  ∧ slots (CacheBucket.cache w') !! idx
                    = Some (mkSlot (Some (inr p)) (time.Unix GoInt.MaxInt64 0) false))
        ∧ ∃ w'', CacheBucket.Bucket name w' = Done (w'', Some p)
                 ∧ CacheBucket.heap w'' = CacheBucket.heap w'.
Proof.
  intros Hk p. unfold CacheBucket.Bucket at 1, Get.
  destruct (missing_key (CacheBucket.cache w) (fnv.Sum64a name) Hk) as (-> & _).
  rewrite Add_zero_duration.
  destruct (add_unfold (fnv.Sum64a name) (Some (inr p)) (time.Unix GoInt.MaxInt64 0)
              (CacheBucket.cache w) Hk) as (idx & Hadd & _ & Hs).
  fold p. rewrite Hadd. cbv beta iota.
  eexists. split; [done|]. split; [done|].
  split; [exists idx; split; [apply lookup_insert_eq|done]|].
  unfold CacheBucket.Bucket, Get. cbn [CacheBucket.cache CacheBucket.heap].
  match goal with |- context [@get ?V0 _ ?t1] =>
    destruct (get_at_slot (V:=V0) t1 (fnv.Sum64a name) idx _
                ltac:(apply lookup_insert_eq) Hs) as [_ H] end.
  destruct (H eq_refl) as (t2 & -> & _). cbv beta iota. by eexists.
Qed.

(** X19: a bucket does not outlive a sweep.  Its slot expires at
    [time.Unix(math.MaxInt64, 0)]; after a sweep whose clock reads
    instants from year 1 on, [Bucket(name)] does not find it and returns
    a pointer to a new, empty bucket, which no earlier call returned. *)
Theorem Bucket_replaced_after_sweep name w clock idx (s : Slot (CacheBucket.val U)) :
  keys (CacheBucket.cache w) !! fnv.Sum64a name = Some idx →
  slots (CacheBucket.cache w) !! idx = Some s →
  empty s = false → ExpiresAt s = time.Unix GoInt.MaxInt64 0 →
  (∀ i, (0 ≤ time.ext (clock i))%Z) →
  ∃ w2,
    CacheBucket.Bucket name
      (CacheBucket.mkWorld (CacheBucket.heap w) (clean clock (CacheBucket.cache w)).1)
    = Done (w2, Some (length (CacheBucket.heap w)))
    ∧ CacheBucket.heap w2 = CacheBucket.heap w ++ [Bucket.mkBucket name []].
Proof.
  intros Hk Hs Es He Hclock.
  set (t1 := (clean clock (CacheBucket.cache w)).1).
  assert (keys t1 !! fnv.Sum64a name = Some idx) as Hk1 by (unfold t1; by rewrite clean_keys).
  assert (slots t1 !! idx = Some (tombstone s)) as Hs1 by by apply sentinel_swept.
  unfold CacheBucket.Bucket, Get. cbn [CacheBucket.cache CacheBucket.heap]. fold t1.
  destruct (get_at_slot t1 (fnv.Sum64a name) idx _ Hk1 Hs1) as [H _].
  rewrite (H eq_refl). cbv beta iota. rewrite Add_zero_duration.
  match goal with |- context [add ?k ?v ?e ?t2] =>
    destruct (add_unfold k v e t2) as (idx2 & -> & _) end.
  { apply lookup_delete_eq. }
  cbv beta iota. by eexists.
Qed.

(** X20: [Bucket(name)] panics when the name holds a value in use that
    is not a bucket pointer: the nil value or a value of the caller. *)
Theorem Bucket_panics_on_other_value name w idx (s : Slot (CacheBucket.val U)) :
  keys (CacheBucket.cache w) !! fnv.Sum64a name = Some idx →
  slots (CacheBucket.cache w) !! idx = Some s →
  empty s = false →
  (Item s = None ∨ ∃ u, Item s = Some (inl u)) →
  CacheBucket.Bucket name w = Panic.
Proof.
  intros Hk Hs Es Hi. unfold CacheBucket.Bucket, Get.
  destruct (get_at_slot (CacheBucket.cache w) (fnv.Sum64a name) idx s Hk Hs) as [_ H].
  destruct (H Es) as (t2 & -> & _).
  destruct Hi as [Hi|[u Hi]]; by rewrite Hi.
Qed.

End CacheBucketFacts.

(** X21: [NewCache] never leaves a zero sweep interval, nor a zero
    refresh duration when [Refresh] is on: a zero value is replaced by
    the default of ten seconds, respectively one second, every other
    value of the caller is kept, and a nil configuration is the default
    one.  The new store has no slot and no key. *)
Theorem NewCache_fills_defaults (V : Type) (cfg : option CacheConfig) :
  let t := NewCache (V:=V) cfg in
  let given := match cfg with Some c => c | None => defaultConfig end in
  slots t = [] ∧ keys t = ∅ ∧ nextExp t = time.zero
  ∧ CleanDuration (config t) ≠ 0%Z
  ∧ (Refresh (config t) = true → RefreshDuration (config t) ≠ 0%Z)
  ∧ Refresh (config t) = Refresh given
  ∧ CleanDuration (config t)
    = (if (CleanDuration given =? 0)%Z then 10 * time.Second else CleanDuration given)%Z
  ∧ (Refresh given = true →
     RefreshDuration (config t)
     = (if (RefreshDuration given =? 0)%Z then 1 * time.Second
        else RefreshDuration given)%Z).
Proof.
  intros t given. unfold t, NewCache. fold given.
  destruct given as [r rd cd]; simpl.
  destruct (Z.eqb_spec cd 0) as [->|Hcd]; simpl;
    destruct r; simpl; destruct (Z.eqb_spec rd 0) as [->|Hrd]; simpl;
    repeat split; try done.
Qed.

(** * The further properties at work on concrete stores *)

Section MoreExamples.
Local Open Scope string_scope.

Lemma Add_then_Get_witness :
  Add "k" (Some "v") time.Second now0 fresh = (one_second, None)
  ∧ ∃ t2, Get "k" one_second = Done (t2, (Some "v", None)).
Proof.
  split; [vm_compute; reflexivity|].
  apply (Add_then_Get "k" (Some "v") time.Second now0 fresh one_second).
  vm_compute; reflexivity.
Defined.

Lemma Add_then_Delete_witness :
  Add "k" (Some "v") time.Second now0 fresh = (one_second, None)
  ∧ ∃ t2, Delete "k" one_second = Done (t2, None)
          ∧ length (slots t2) = length (slots one_second)
          ∧ Get "k" t2 = Done (t2, (None, Some ErrDNE))
          ∧ Delete "k" t2 = Done (t2, Some ErrDNE).
Proof.
  split; [vm_compute; reflexivity|].
  apply (Add_then_Delete "k" (Some "v") time.Second now0 fresh one_second).
  vm_compute; reflexivity.
Defined.

Lemma slots_grow_only_by_add_witness :
  delete (fnv.Sum64a "b") two_entries
  = Done (mkCache [mkSlot (Some "va") (later 60) false; mkSlot (Some "vb") (later 1) true]
                  {[ fnv.Sum64a "a" := 0 ]} (later 1) defaultConfig, None)
  ∧ length [mkSlot (Some "va") (later 60) false; mkSlot (Some "vb") (later 1) true]
    = length (slots two_entries).
Proof.
  assert (delete (fnv.Sum64a "b") two_entries
          = Done (mkCache [mkSlot (Some "va") (later 60) false;
                           mkSlot (Some "vb") (later 1) true]
                          {[ fnv.Sum64a "a" := 0 ]} (later 1) defaultConfig, None)) as Hd
    by (vm_compute; reflexivity).
  split; [exact Hd|].
  exact (proj1 (proj2 (proj2 (proj2 (proj2 (slots_grow_only_by_add two_entries)))))
           _ _ _ Hd).
Defined.

Lemma reachable_store_never_panics_witness :
  reachable two_entries
  ∧ (∀ key, get key two_entries ≠ Panic)
  ∧ (∀ key, delete key two_entries ≠ Panic)
  ∧ (∀ key item, update key item two_entries ≠ Panic)
  ∧ (∀ key d, extend key d two_entries ≠ Panic)
  ∧ (∀ b it, bucketIterator.Next b it two_entries ≠ Panic).
Proof.
  split; [apply two_entries_reachable|].
  apply (reachable_store_never_panics two_entries), two_entries_reachable.
Defined.

Lemma other_keys_stay_in_index_witness :
  fnv.Sum64a "a" ≠ fnv.Sum64a "b"
  ∧ ∀ item e, keys (add (fnv.Sum64a "b") item e two_entries).1 !! fnv.Sum64a "a"
              = keys two_entries !! fnv.Sum64a "a".
Proof.
  assert (fnv.Sum64a "a" ≠ fnv.Sum64a "b") as Hne by (vm_compute; discriminate).
  split; [exact Hne|].
  exact (proj1 (other_keys_stay_in_index two_entries _ _ Hne)).
Defined.

Lemma stale_key_reads_next_entry_witness :
  keys after_sweep !! fnv.Sum64a "k" = Some 0
  ∧ slots after_sweep !! 0 = Some (mkSlot (Some "v") (later 1) true)
  ∧ keys after_sweep !! fnv.Sum64a "other" = None
  ∧ ∃ t2, get (fnv.Sum64a "k")
            (add (fnv.Sum64a "other") (Some "w") (later 70) after_sweep).1
          = Done (t2, (Some "w", None)).
Proof.
  split; [vm_compute; reflexivity|]. split; [vm_compute; reflexivity|].
  split; [vm_compute; reflexivity|].
  apply (stale_key_reads_next_entry after_sweep (fnv.Sum64a "k") (fnv.Sum64a "other") 0
           (mkSlot (Some "v") (later 1) true)); vm_compute; reflexivity.
Defined.

Lemma get_refreshes_by_extend_witness :
  keys refreshing !! fnv.Sum64a "k" = Some 0
  ∧ slots refreshing !! 0 = Some (mkSlot (Some "v") (later 60) false)
  ∧ Refresh (config refreshing) = true
  ∧ ∃ t', extend (fnv.Sum64a "k") (RefreshDuration (config refreshing)) refreshing
          = Done (t', None)
          ∧ get (fnv.Sum64a "k") refreshing = Done (t', (Some "v", None))
          ∧ slots t' !! 0
            = Some (mkSlot (Some "v")
                      (time.Add (later 60) (RefreshDuration (config refreshing))) false).
Proof.
  split; [vm_compute; reflexivity|]. split; [vm_compute; reflexivity|].
  split; [reflexivity|].
  apply (proj2 (get_refreshes_by_extend refreshing (fnv.Sum64a "k") 0
                  (mkSlot (Some "v") (later 60) false)
                  ltac:(vm_compute; reflexivity) ltac:(vm_compute; reflexivity) eq_refl)).
  reflexivity.
Defined.

Lemma sweep_sets_nextExp_to_nearest_witness :
  (∃ s, s ∈ slots (clean (at_ now0) two_entries).1 ∧ empty s = false)
  ∧ ∃ s, s ∈ slots (clean (at_ now0) two_entries).1 ∧ empty s = false
         ∧ nextExp (clean (at_ now0) two_entries).1 = ExpiresAt s
         ∧ ∀ s', s' ∈ slots (clean (at_ now0) two_entries).1 → empty s' = false →
                 time.le (ExpiresAt s) (ExpiresAt s').
Proof.
  assert (∃ s, s ∈ slots (clean (at_ now0) two_entries).1 ∧ empty s = false) as Hex.
  { exists (mkSlot (Some "va") (later 60) false). split; [|reflexivity].
    apply (list_elem_of_lookup_2 _ 0). vm_compute; reflexivity. }
  split; [exact Hex|].
  exact (proj1 (sweep_sets_nextExp_to_nearest (at_ now0) two_entries) Hex).
Defined.

Lemma closed_gate_misses_nothing_witness :
  reachable two_entries
  ∧ time.After now0 (nextExp two_entries) = false
  ∧ janitor now0 (λ _, now0) two_entries = (two_entries, [])
  ∧ (clean (λ _, now0) two_entries).2 = []
  ∧ slots (clean (λ _, now0) two_entries).1 = slots two_entries.
Proof.
  split; [apply two_entries_reachable|]. split; [vm_compute; reflexivity|].
  apply (closed_gate_misses_nothing now0 two_entries);
    [apply two_entries_reachable|vm_compute; reflexivity].
Defined.

Lemma now0_roomy : roomy now0.
Proof. vm_compute. repeat split; discriminate. Qed.

Lemma entry_survives_until_expiry_witness :
  roomy now0 ∧ (0 < time.Second ≤ GoInt.MaxInt64)%Z
  ∧ Add "k" (Some "v") time.Second now0 fresh = (one_second, None)
  ∧ time.le now0 (time.Add now0 time.Second)
  ∧ ∀ clock, (∀ i, time.le (clock i) (time.Add now0 time.Second)) →
      ∃ t2, Get "k" (clean clock one_second).1 = Done (t2, (Some "v", None)).
Proof.
  assert ((0 < time.Second ≤ GoInt.MaxInt64)%Z) as Httl by (vm_compute; split; [reflexivity|discriminate]).
  split; [apply now0_roomy|]. split; [exact Httl|]. split; [vm_compute; reflexivity|].
  apply (entry_survives_until_expiry "k" (Some "v") time.Second now0 fresh one_second
           now0_roomy Httl).
  vm_compute; reflexivity.
Defined.

Lemma Bucket_Add_list_witness :
  (fnv.Sum64a "b-x" ∉ ([] : list Z))
  ∧ Bucket.list (Bucket.Add "x" (Some "1") 0%Z now0 (Bucket.mkBucket "b" []) fresh).1.1
    = [fnv.Sum64a (Bucket.pk "b" "x")]
  ∧ keys store_x !! fnv.Sum64a (Bucket.pk "b" "x") = Some 0
  ∧ (Bucket.Add "x" (Some "2") 0%Z now0 (Bucket.mkBucket "b" []) store_x).1.2 = store_x
  ∧ (Bucket.Add "x" (Some "2") 0%Z now0 (Bucket.mkBucket "b" []) store_x).2
    = Some ErrCollision.
Proof.
  assert (fnv.Sum64a "b-x" ∉ ([] : list Z)) as Hn by apply not_elem_of_nil.
  assert (keys store_x !! fnv.Sum64a (Bucket.pk "b" "x") = Some 0) as Hk
    by (vm_compute; reflexivity).
  split; [exact Hn|]. split; [|split; [exact Hk|]].
  - exact (proj1 (proj2 (proj2 (proj2 (proj2
             (Bucket_Add_list "x" (Some "1") 0%Z now0 (Bucket.mkBucket "b" []) fresh)))))
             Hn).
  - exact (proj2 (proj2 (proj2 (proj2 (proj2
             (Bucket_Add_list "x" (Some "2") 0%Z now0 (Bucket.mkBucket "b" []) store_x)))))
             0 Hk).
Defined.

Lemma Bucket_Delete_list_witness :
  Bucket.Delete "x" (Bucket.mkBucket "b" [fnv.Sum64a "b-x"]) fresh
  = Done (Bucket.mkBucket "b" [], fresh, Some ErrDNE)
  ∧ NoDup [fnv.Sum64a "b-x"]
  ∧ [] = other_than (fnv.Sum64a (Bucket.pk "b" "x")) [fnv.Sum64a "b-x"]
  ∧ (fnv.Sum64a (Bucket.pk "b" "x") ∉ ([] : list Z)).
Proof.
  assert (Bucket.Delete "x" (Bucket.mkBucket "b" [fnv.Sum64a "b-x"]) fresh
          = Done (Bucket.mkBucket "b" [], fresh, Some ErrDNE)) as Hd
    by (vm_compute; reflexivity).
  assert (NoDup [fnv.Sum64a "b-x"]) as Hnd by apply NoDup_singleton.
  split; [exact Hd|]. split; [exact Hnd|].
  destruct (Bucket_Delete_list "x" (Bucket.mkBucket "b" [fnv.Sum64a "b-x"]) fresh
              (Bucket.mkBucket "b" []) fresh (Some ErrDNE) Hd Hnd) as (H1 & H2 & _).
  split; [exact H1|exact H2].
Defined.

Lemma Bucket_Add_then_Get_witness :
  Bucket.Add "x" (Some "1") 0%Z now0 (Bucket.mkBucket "b" []) fresh
  = (Bucket.mkBucket "b" [fnv.Sum64a "b-x"], store_x, None)
  ∧ (∃ t2, Bucket.Get "x" (Bucket.mkBucket "b" [fnv.Sum64a "b-x"]) store_x
           = Done (t2, (Some "1", None)))
  ∧ ∀ v, ∃ t2,
      Bucket.Update "x" v (Bucket.mkBucket "b" [fnv.Sum64a "b-x"]) store_x = Done (t2, None)
      ∧ ∃ t3, Bucket.Get "x" (Bucket.mkBucket "b" [fnv.Sum64a "b-x"]) t2
              = Done (t3, (v, None)).
Proof.
  assert (Bucket.Add "x" (Some "1") 0%Z now0 (Bucket.mkBucket "b" []) fresh
          = (Bucket.mkBucket "b" [fnv.Sum64a "b-x"], store_x, None)) as Ha
    by (vm_compute; reflexivity).
  split; [exact Ha|].
  exact (Bucket_Add_then_Get "x" (Some "1") 0%Z now0 (Bucket.mkBucket "b" []) fresh _ _ Ha).
Defined.

Lemma iterator_Update_writes_visited_entry_witness :
  [fnv.Sum64a "b-x"] !! 0 = Some (fnv.Sum64a "b-x")
  ∧ get (fnv.Sum64a "b-x") store_x = Done (store_x, (Some "1", None))
  ∧ bucketIterator.Next (Bucket.mkBucket "b" [fnv.Sum64a "b-x"])
      bucketIterator.Iterator store_x
    = Done (true, bucketIterator.mkIter (fnv.Sum64a "b-x") (Some "1") 1, store_x)
  ∧ ∀ v, ∃ t2,
      bucketIterator.Update v (bucketIterator.mkIter (fnv.Sum64a "b-x") (Some "1") 1)
        store_x = Done (t2, None)
      ∧ ∃ t3, get (fnv.Sum64a "b-x") t2 = Done (t3, (v, None)).
Proof.
  assert (get (fnv.Sum64a "b-x") store_x = Done (store_x, (Some "1", None))) as Hg
    by (vm_compute; reflexivity).
  split; [reflexivity|]. split; [exact Hg|].
  destruct (iterator_Update_writes_visited_entry
              (Bucket.mkBucket "b" [fnv.Sum64a "b-x"]) bucketIterator.Iterator store_x
              (fnv.Sum64a "b-x") store_x (Some "1") eq_refl Hg) as (Hn & _ & Hu).
  split; [exact Hn|exact Hu].
Defined.

Lemma exhausted_iterator_resumes_witness :
  wf fresh
  ∧ bucketIterator.position (bucketIterator.Iterator (V:=string)) = length ([] : list Z)
  ∧ (fnv.Sum64a (Bucket.pk "b" "x") ∉ ([] : list Z))
  ∧ bucketIterator.Next (Bucket.mkBucket "b" []) bucketIterator.Iterator fresh
    = Done (false, bucketIterator.Iterator, fresh)
  ∧ ∃ v t2,
      bucketIterator.Next
        (Bucket.Add "x" (Some "1") 0%Z now0 (Bucket.mkBucket "b" []) fresh).1.1
        bucketIterator.Iterator
        (Bucket.Add "x" (Some "1") 0%Z now0 (Bucket.mkBucket "b" []) fresh).1.2
      = Done (true, bucketIterator.mkIter (fnv.Sum64a (Bucket.pk "b" "x")) v 1, t2).
Proof.
  assert (fnv.Sum64a (Bucket.pk "b" "x") ∉ ([] : list Z)) as Hn by apply not_elem_of_nil.
  split; [apply wf_NewCache|]. split; [reflexivity|]. split; [exact Hn|].
  exact (exhausted_iterator_resumes "x" (Some "1") 0%Z now0 (Bucket.mkBucket "b" [])
           bucketIterator.Iterator fresh (wf_NewCache None) eq_refl Hn).
Defined.

Lemma Bucket_creates_then_returns_witness :
  keys (CacheBucket.cache (CacheBucket.mkWorld [] (NewCache (V:=CacheBucket.val string) None)))
    !! fnv.Sum64a "b" = None
  ∧ ∃ w', CacheBucket.Bucket "b" (CacheBucket.mkWorld [] (NewCache None))
          = Done (w', Some 0)
          ∧ CacheBucket.heap w' = [Bucket.mkBucket "b" []]
          ∧ (∃ idx, keys (CacheBucket.cache w') !! fnv.Sum64a "b" = Some idx
                    ∧ slots (CacheBucket.cache w') !! idx
                      = Some (mkSlot (Some (inr 0 : CacheBucket.val string)) (time.Unix GoInt.MaxInt64 0) false))
          ∧ ∃ w'', CacheBucket.Bucket "b" w' = Done (w'', Some 0)
                   ∧ CacheBucket.heap w'' = CacheBucket.heap w'.
Proof.
  split; [reflexivity|].
  apply (Bucket_creates_then_returns (U:=string) "b"
           (CacheBucket.mkWorld [] (NewCache None))).
  reflexivity.
Defined.

Lemma Bucket_replaced_after_sweep_witness :
  keys (CacheBucket.cache world_b) !! fnv.Sum64a "b" = Some 0
  ∧ slots (CacheBucket.cache world_b) !! 0
    = Some (mkSlot (Some (inr 0 : CacheBucket.val string)) (time.Unix GoInt.MaxInt64 0) false)
  ∧ (∀ i, (0 ≤ time.ext (at_ (later 10) i))%Z)
  ∧ ∃ w2,
      CacheBucket.Bucket "b"
        (CacheBucket.mkWorld (CacheBucket.heap world_b)
           (clean (at_ (later 10)) (CacheBucket.cache world_b)).1)
      = Done (w2, Some (length (CacheBucket.heap world_b)))
      ∧ CacheBucket.heap w2 = (CacheBucket.heap world_b ++ [Bucket.mkBucket "b" []])%list.
Proof.
  assert (∀ i, (0 ≤ time.ext (at_ (later 10) i))%Z) as Hc
    by (intros i; vm_compute; discriminate).
  split; [vm_compute; reflexivity|]. split; [vm_compute; reflexivity|].
  split; [exact Hc|].
  apply (Bucket_replaced_after_sweep "b" world_b (at_ (later 10)) 0
           (mkSlot (Some (inr 0 : CacheBucket.val string)) (time.Unix GoInt.MaxInt64 0) false));
    [vm_compute; reflexivity|vm_compute; reflexivity|reflexivity|reflexivity|exact Hc].
Defined.

Lemma Bucket_panics_on_other_value_witness :
  keys store_with_value !! fnv.Sum64a "k" = Some 0
  ∧ slots store_with_value !! 0 = Some (mkSlot (Some (inl "v")) (later 60) false)
  ∧ CacheBucket.Bucket "k" (CacheBucket.mkWorld [] store_with_value) = Panic.
Proof.
  split; [vm_compute; reflexivity|]. split; [vm_compute; reflexivity|].
  apply (Bucket_panics_on_other_value "k" (CacheBucket.mkWorld [] store_with_value) 0
           (mkSlot (Some (inl "v")) (later 60) false));
    [vm_compute; reflexivity|vm_compute; reflexivity|reflexivity|].
  right. by exists "v".
Defined.

Lemma NewCache_fills_defaults_witness :
  Refresh (config (NewCache (V:=string) (Some (mkConfig true 0%Z 0%Z)))) = true
  ∧ RefreshDuration (config (NewCache (V:=string) (Some (mkConfig true 0%Z 0%Z)))) ≠ 0%Z
  ∧ RefreshDuration (config (NewCache (V:=string) (Some (mkConfig true 0%Z 0%Z))))
    = (1 * time.Second)%Z.
Proof.
  destruct (NewCache_fills_defaults string (Some (mkConfig true 0%Z 0%Z)))
    as (_ & _ & _ & _ & Hnz & _ & _ & Hr).
  split; [reflexivity|]. split; [exact (Hnz eq_refl)|exact (Hr eq_refl)].
Defined.

End MoreExamples.
